(** * fastle: the worker of a daily word-guessing game

    A shallow embedding of [src/worker/index.ts]: the evaluation of a guess
    against the answer, the selection of the daily word, the game number, and
    the two POST handlers, followed by the properties the specification
    states about them. *)

From Stdlib Require Import ZArith Lia Ascii DecimalString.
From Stdlib Require DecimalPos DecimalZ.
From stdpp Require Import gmap list strings.

Local Open Scope Z_scope.

(** ** JavaScript values used by the worker *)

(** A JavaScript string is a sequence of UTF-16 code units; [length] is the
    number of code units, [charCodeAt] reads one, and [===] on strings is
    equality of the sequences. *)
Definition code_unit := N.
Abbreviation jsstring := (list code_unit).

(** String literals of the source, as code units. *)
Definition str (s : string) : jsstring :=
  N_of_ascii <$> String.list_ascii_of_string s.

(** The code unit of ["_"], the mark [evaluate] writes over a consumed letter. *)
Definition underscore : code_unit := 95%N.

Definition letter_e : code_unit := 101%N.

(** The lowercase letters [a]..[z]. *)
Definition lowercase (c : code_unit) : Prop := (97 <= c <= 122)%N.

Module JsArray.
(** An array of one-letter strings. A slot holds [Some c], or [None] when it
    is a hole: reading a hole, like reading past the end, gives [undefined]. *)
Abbreviation t := (list (option code_unit)).

(** [a[i]]: [None] stands for [undefined]. *)
Definition get (a : t) (i : nat) : option code_unit :=
  match a !! i with
  | Some v => v
  | None => None
  end.

(** [a[i] = v]: past the end the array grows, leaving holes before [i]. *)
Definition set (a : t) (i : nat) (v : code_unit) : t :=
  if decide (i < length a)%nat then <[i := Some v]> a
  else a ++ replicate (i - length a) None ++ [Some v].

(** [a.indexOf(x)]: the first index holding [x] under [===], [None] for -1.
    Holes are skipped, so [undefined] is never found. *)
Fixpoint indexOf (a : t) (x : option code_unit) : option nat :=
  match a with
  | [] => None
  | v :: a' =>
      match x, v with
      | Some c, Some d =>
          if decide (c = d) then Some 0%nat else S <$> indexOf a' x
      | _, _ => S <$> indexOf a' x
      end
  end.

(** [s.split("")] *)
Definition split (s : jsstring) : t := Some <$> s.
End JsArray.

(** ** [evaluate] *)

Inductive tag := correct | present | absent.

#[global] Instance tag_eq_dec : EqDecision tag.
Proof. solve_decision. Defined.

(** The three local arrays of [evaluate]. *)
Record locals := Locals {
  result : list tag;
  answerLetters : JsArray.t;
  guessLetters : JsArray.t
}.

(** Body of the first loop, at index [i]. [result] has five slots and
    [i < 5], so the write to it is in range. *)
Definition first_pass (st : locals) (i : nat) : locals :=
  if decide (JsArray.get (guessLetters st) i = JsArray.get (answerLetters st) i)
  then {| result := <[i := correct]> (result st);
          answerLetters := JsArray.set (answerLetters st) i underscore;
          guessLetters := JsArray.set (guessLetters st) i underscore |}
  else st.

(** Body of the second loop, at index [i]. *)
Definition second_pass (st : locals) (i : nat) : locals :=
  if decide (JsArray.get (guessLetters st) i = Some underscore) then st
  else
    match JsArray.indexOf (answerLetters st) (JsArray.get (guessLetters st) i) with
    | Some idx =>
        {| result := <[i := present]> (result st);
           answerLetters := JsArray.set (answerLetters st) idx underscore;
           guessLetters := guessLetters st |}
    | None => st
    end.

Definition evaluate_init (guess answer : jsstring) : locals :=
  {| result := replicate 5 absent;
     answerLetters := JsArray.split answer;
     guessLetters := JsArray.split guess |}.

Definition evaluate (guess answer : jsstring) : list tag :=
  let st1 := foldl first_pass (evaluate_init guess answer) (seq 0 5) in
  let st2 := foldl second_pass st1 (seq 0 5) in
  result st2.

(** ** Numbers

    Clock readings, hashes and the integers of a request body have magnitudes
    far below 2^53, where sums, differences and comparisons of JavaScript
    numbers are exact, so they are modelled in [Z]; the one quotient, in
    [getGameNumber], is rounded by less than the distance of the exact
    quotient to the next integer, so its [Math.floor] is the floor of the
    exact quotient. The 32-bit operators are written out. *)

Module Int32.
(** [ToInt32]: reduce modulo 2^32 into the signed range. *)
Definition wrap (z : Z) : Z := (z + 2147483648) mod 4294967296 - 2147483648.

(** [a << n] *)
Definition shl (a n : Z) : Z := wrap (Z.shiftl (wrap a) (n mod 32)).

(** [a | b] *)
Definition or (a b : Z) : Z := wrap (Z.lor (wrap a) (wrap b)).
End Int32.

(** Template-literal rendering of an integer: decimal digits, with a leading
    minus sign when negative and no padding. *)
Definition decimal (z : Z) : jsstring := str (NilZero.string_of_int (Z.to_int z)).

(** ** Dates

    The UTC accessors of [Date], after ECMA-262 (section "Time Values and Time
    Range"). A time value is a number of milliseconds since 1970-01-01T00:00Z. *)

Module JsDate.
Definition msPerDay : Z := 86400000.

Definition Day (t : Z) : Z := t / msPerDay.

Definition DaysInYear (y : Z) : Z :=
  if negb (y mod 4 =? 0) then 365
  else if negb (y mod 100 =? 0) then 366
  else if negb (y mod 400 =? 0) then 365
  else 366.

Definition DayFromYear (y : Z) : Z :=
  365 * (y - 1970) + (y - 1969) / 4 - (y - 1901) / 100 + (y - 1601) / 400.

Definition TimeFromYear (y : Z) : Z := msPerDay * DayFromYear y.

(** The largest [y] with [TimeFromYear y <= t], computed from an estimate
    that is off by at most one year ([YearFromTime_bracket] below). *)
Definition YearFromTime (t : Z) : Z :=
  let d := Day t in
  let y0 := 1970 + (400 * d) / 146097 in
  if d <? DayFromYear y0 then y0 - 1
  else if DayFromYear (y0 + 1) <=? d then y0 + 1
  else y0.

Definition InLeapYear (t : Z) : Z :=
  if DaysInYear (YearFromTime t) =? 366 then 1 else 0.

Definition DayWithinYear (t : Z) : Z := Day t - DayFromYear (YearFromTime t).

Definition MonthFromTime (t : Z) : Z :=
  let d := DayWithinYear t in
  let l := InLeapYear t in
  if d <? 31 then 0
  else if d <? 59 + l then 1
  else if d <? 90 + l then 2
  else if d <? 120 + l then 3
  else if d <? 151 + l then 4
  else if d <? 181 + l then 5
  else if d <? 212 + l then 6
  else if d <? 243 + l then 7
  else if d <? 273 + l then 8
  else if d <? 304 + l then 9
  else if d <? 334 + l then 10
  else 11.

Definition DateFromTime (t : Z) : Z :=
  let d := DayWithinYear t in
  let l := InLeapYear t in
  match MonthFromTime t with
  | 0 => d + 1
  | 1 => d - 30
  | 2 => d - 58 - l
  | 3 => d - 89 - l
  | 4 => d - 119 - l
  | 5 => d - 150 - l
  | 6 => d - 180 - l
  | 7 => d - 211 - l
  | 8 => d - 242 - l
  | 9 => d - 272 - l
  | 10 => d - 303 - l
  | _ => d - 333 - l
  end.

Definition getUTCFullYear := YearFromTime.
Definition getUTCMonth := MonthFromTime.
Definition getUTCDate := DateFromTime.
End JsDate.

(** ** The daily word and the game number *)

(** [new Date("2025-01-01T00:00:00Z").getTime()]: midnight opening the year. *)
Definition start : Z := JsDate.TimeFromYear 2025.

(** [getGameNumber], as a function of the clock reading [now]. [Math.floor]
    of the quotient is the floor division of [Z]. *)
Definition getGameNumber (now : Z) : Z := (now - start) / 86400000.

Definition dateStr (today : Z) : jsstring :=
  decimal (JsDate.getUTCFullYear today) ++ str "-" ++
  decimal (JsDate.getUTCMonth today + 1) ++ str "-" ++
  decimal (JsDate.getUTCDate today).

(** Body of the hashing loop: [hash = ((hash << 5) - hash) + c; hash |= 0]. *)
Definition hash_step (hash : Z) (c : code_unit) : Z :=
  Int32.or ((Int32.shl hash 5 - hash) + Z.of_N c) 0.

Definition hash_loop (s : jsstring) : Z := foldl hash_step 0 s.

(** The recurrence as the specification words it: [hash * 31 + charCode] in
    wrap-around 32-bit signed arithmetic. *)
Definition spec_hash_step (hash : Z) (c : code_unit) : Z :=
  Int32.wrap (hash * 31 + Z.of_N c).

Definition spec_hash (s : jsstring) : Z := foldl spec_hash_step 0 s.

(** ** The leaderboard table

    [fastest_times], keyed by [game_number]. The column [created_at] is
    written by the database and read by no statement of the worker, so a row
    carries the other two columns. *)

Record row := Row { time_ms : Z; num_guesses : Z }.

#[global] Instance row_eq_dec : EqDecision row.
Proof. solve_decision. Defined.

Abbreviation table := (gmap Z row).

(** [SELECT time_ms FROM fastest_times WHERE game_number = ?] *)
Definition select_time (db : table) (g : Z) : option Z := time_ms <$> db !! g.

(** [INSERT OR REPLACE INTO fastest_times (game_number, time_ms, num_guesses)].
    The columns are 64-bit integers: the model is for the values they hold,
    and leaves out a key beyond them, which the statement refuses. *)
Definition insert_or_replace (db : table) (g t n : Z) : table :=
  <[g := Row t n]> db.

(** [SELECT time_ms, num_guesses FROM fastest_times WHERE game_number = ?] *)
Definition select_row (db : table) (g : Z) : option row := db !! g.

(** ** [POST /api/solve] *)

Record solve_request := SolveRequest { gameNumber : Z; timeMs : Z; numGuesses : Z }.

(** The JSON body of the answer; [None] is [null]. *)
Record solve_response := SolveResponse {
  fastestTimeMs : option Z;
  fastestGuesses : option Z
}.

(** Where a call of the handler stands: each [await] runs one statement and
    gives other requests the chance to run before the next. *)
Inductive solve_pc :=
  | AtSelect
  | AtWrite (current : option Z)
  | AtReread
  | Responded (r : solve_response).

(** One statement of the handler, from [pc], on the table as it is then. *)
Definition solve_step (req : solve_request) (pc : solve_pc) (db : table)
  : solve_pc * table :=
  match pc with
  | AtSelect => (AtWrite (select_time db (gameNumber req)), db)
  | AtWrite current =>
      let write :=
        match current with
        | None => true
        | Some t => timeMs req <? t
        end in
      (AtReread,
       if write
       then insert_or_replace db (gameNumber req) (timeMs req) (numGuesses req)
       else db)
  | AtReread =>
      let fastest := select_row db (gameNumber req) in
      (Responded {| fastestTimeMs := time_ms <$> fastest;
                    fastestGuesses := num_guesses <$> fastest |}, db)
  | Responded r => (Responded r, db)
  end.

(** A call that runs alone: its three statements in a row. *)
Definition solve_handler (req : solve_request) (db : table)
  : option solve_response * table :=
  let '(pc1, db1) := solve_step req AtSelect db in
  let '(pc2, db2) := solve_step req pc1 db1 in
  let '(pc3, db3) := solve_step req pc2 db2 in
  (match pc3 with Responded r => Some r | _ => None end, db3).

(** Submissions one after the other; the table they leave. *)
Definition solve_all (reqs : list solve_request) (db : table) : table :=
  foldl (λ d req, (solve_handler req d).2) db reqs.

(** Two calls in flight: the table and where each call stands. A schedule
    names, step by step, which call runs its next statement ([false] the
    first, [true] the second). *)
Record race := Race { store : table; first_call : solve_pc; second_call : solve_pc }.

Definition race_step (a b : solve_request) (r : race) (who : bool) : race :=
  if who
  then let '(pc, db) := solve_step b (second_call r) (store r) in
       {| store := db; first_call := first_call r; second_call := pc |}
  else let '(pc, db) := solve_step a (first_call r) (store r) in
       {| store := db; first_call := pc; second_call := second_call r |}.

Definition race_run (a b : solve_request) (db : table) (schedule : list bool) : race :=
  foldl (race_step a b) {| store := db; first_call := AtSelect; second_call := AtSelect |}
        schedule.

(** A schedule that runs each call's three statements, in any interleaving. *)
Definition complete (schedule : list bool) : Prop :=
  length (filter (λ w, w = false) schedule) = 3%nat ∧
  length (filter (λ w, w = true) schedule) = 3%nat.

(** ** [getDailyWord] and [POST /api/guess]

    The word list of [./words] and the string methods of the runtime are not
    part of the worker's file; the worker is stated over any of them. *)

Inductive guess_response :=
  | GuessError (status : Z) (error : string)
  | GuessOk (result : list tag) (solved : bool)
  | GuessThrows.

Section Worker.
Variable WORDS : list jsstring.
Variables toLowerCase trim : jsstring → jsstring.

Definition WORD_SET : gset jsstring := list_to_set WORDS.

(** [WORDS[Math.abs(hash) % WORDS.length]], as a function of the clock
    reading. With an empty list the index is [NaN] and the read gives
    [undefined], here [None]. *)
Definition getDailyWord (today : Z) : option jsstring :=
  let hash := hash_loop (dateStr today) in
  let n := Z.of_nat (length WORDS) in
  if n =? 0 then None
  else WORDS !! Z.to_nat (Z.rem (Z.abs hash) n).

(** The handler, on the [guess] field of the body and the clock reading
    [getDailyWord] takes. An [undefined] answer makes [answer.split] throw. *)
Definition guess_handler (now : Z) (guess : jsstring) : guess_response :=
  let word := trim (toLowerCase guess) in
  if negb (length word =? 5)%nat then GuessError 400 "Word must be 5 letters"
  else if negb (bool_decide (word ∈ WORD_SET)) then GuessError 400 "Not in word list"
  else
    match getDailyWord now with
    | None => GuessThrows
    | Some answer =>
        let result := evaluate word answer in
        let solved := bool_decide (word = answer) in
        GuessOk result solved
    end.
End Worker.

(** The handler on the request body: [Some guess] when the parsed body gives
    a string for [guess]; [None] for any other body, where the parsing or
    [guess.toLowerCase()] throws. *)
Definition guess_route (WORDS : list jsstring)
    (toLowerCase trim : jsstring → jsstring) (now : Z) (body : option jsstring)
  : guess_response :=
  match body with
  | Some guess => guess_handler WORDS toLowerCase trim now guess
  | None => GuessThrows
  end.

(** The string methods on ASCII text, to run the handler on examples. *)
Definition ascii_toLowerCase (s : jsstring) : jsstring :=
  (λ c, if ((65 <=? c) && (c <=? 90))%N then (c + 32)%N else c) <$> s.

Definition ascii_space (c : code_unit) : bool :=
  ((9 <=? c) && (c <=? 13) || (c =? 32))%N.

Fixpoint drop_spaces (s : jsstring) : jsstring :=
  match s with
  | c :: s' => if ascii_space c then drop_spaces s' else s
  | [] => []
  end.

Definition ascii_trim (s : jsstring) : jsstring :=
  reverse (drop_spaces (reverse (drop_spaces s))).

Definition sample_words : list jsstring :=
  [str "crane"; str "speed"; str "erase"; str "hello"; str "world"].

(** ** Counting, for the statements about [evaluate] *)

(** Positions at which guess and answer carry the same letter. *)
Fixpoint matches (guess answer : jsstring) : nat :=
  match guess, answer with
  | g :: guess', a :: answer' =>
      ((if decide (g = a) then 1 else 0) + matches guess' answer')%nat
  | _, _ => 0%nat
  end.

Definition count_tag (t : tag) (r : list tag) : nat :=
  length (filter (λ u, u = t) r).

(** Positions tagged [correct] or [present] whose guess letter is [c]. *)
Fixpoint marked (c : code_unit) (guess : jsstring) (r : list tag) : nat :=
  match guess, r with
  | g :: guess', u :: r' =>
      ((if decide (g = c ∧ u ≠ absent) then 1 else 0) + marked c guess' r')%nat
  | _, _ => 0%nat
  end.

(** Multiplicity of the letter [c] in a word. *)
Definition occurrences (c : code_unit) (w : jsstring) : nat :=
  length (filter (λ d, d = c) w).

(** Slots of an array still holding the letter [c]. *)
Fixpoint holds (c : code_unit) (a : JsArray.t) : nat :=
  match a with
  | v :: a' => ((if decide (v = Some c) then 1 else 0) + holds c a')%nat
  | [] => 0%nat
  end.

(** The state the first loop leaves on five-letter words, slot by slot. *)
Definition after_first_pass (guess answer : jsstring) : locals :=
  {| result := zip_with (λ g a, if decide (g = a) then correct else absent) guess answer;
     answerLetters :=
       zip_with (λ g a, if decide (g = a) then Some underscore else Some a) guess answer;
     guessLetters :=
       zip_with (λ g a, if decide (g = a) then Some underscore else Some g) guess answer |}.

(** ** [GET /api/fastest/:gameNumber] *)

(** The white space [parseInt] skips: [WhiteSpace] and [LineTerminator] of
    ECMA-262. *)
Definition StrWhiteSpaceChar (c : code_unit) : bool :=
  bool_decide (c ∈ [9; 10; 11; 12; 13; 32; 160; 5760; 8192; 8193; 8194; 8195;
                    8196; 8197; 8198; 8199; 8200; 8201; 8202; 8232; 8233;
                    8239; 8287; 12288; 65279]%N).

Fixpoint skip_white_space (s : jsstring) : jsstring :=
  match s with
  | c :: s' => if StrWhiteSpaceChar c then skip_white_space s' else s
  | [] => []
  end.

(** The value of [c] as a digit of the radix, if it is one. *)
Definition digit_value (radix : Z) (c : code_unit) : option Z :=
  let v :=
    if ((48 <=? c) && (c <=? 57))%N then Some (Z.of_N c - 48)
    else if ((97 <=? c) && (c <=? 122))%N then Some (Z.of_N c - 87)
    else if ((65 <=? c) && (c <=? 90))%N then Some (Z.of_N c - 55)
    else None in
  match v with
  | Some d => if d <? radix then Some d else None
  | None => None
  end.

(** The integer of the longest prefix of digits, after [acc]. *)
Fixpoint parse_digits (radix acc : Z) (s : jsstring) : Z :=
  match s with
  | c :: s' =>
      match digit_value radix c with
      | Some d => parse_digits radix (acc * radix + d) s'
      | None => acc
      end
  | [] => acc
  end.

(** Whether the text starts with [0x] or [0X]. *)
Definition hex_prefix (s : jsstring) : bool :=
  match s with
  | c :: x :: _ => ((c =? 48) && ((x =? 120) || (x =? 88)))%N
  | _ => false
  end.

(** [parseInt] after the sign: a prefix [0x] or [0X] is dropped and makes
    the radix 16, and there must be a digit. [None] stands for [NaN], and for
    an integer of magnitude 2^53 or more, which the runtime rounds. *)
Definition parse_magnitude (sign : Z) (s2 : jsstring) : option Z :=
  let radix := if hex_prefix s2 then 16 else 10 in
  let s3 := if hex_prefix s2 then drop 2 s2 else s2 in
  match s3 with
  | c :: _ =>
      match digit_value radix c with
      | Some _ =>
          let v := sign * parse_digits radix 0 s3 in
          if Z.abs v <? 9007199254740992 then Some v else None
      | None => None
      end
  | [] => None
  end.

(** [parseInt(s)], without a radix. *)
Definition parseInt (s : jsstring) : option Z :=
  let s1 := skip_white_space s in
  match s1 with
  | c :: r =>
      if (c =? 45)%N then parse_magnitude (-1) r
      else if (c =? 43)%N then parse_magnitude 1 r
      else parse_magnitude 1 s1
  | [] => parse_magnitude 1 s1
  end.

(** The handler on the number [parseInt] gave. *)
Definition fastest_handler (db : table) (gameNumber : Z) : solve_response :=
  let fastest := select_row db gameNumber in
  {| fastestTimeMs := time_ms <$> fastest;
     fastestGuesses := num_guesses <$> fastest |}.

(** Whether [parseInt] finds no digit after the sign and the prefix, and
    gives [NaN]. *)
Definition no_digit (s2 : jsstring) : bool :=
  let radix := if hex_prefix s2 then 16 else 10 in
  let s3 := if hex_prefix s2 then drop 2 s2 else s2 in
  match s3 with
  | c :: _ =>
      match digit_value radix c with
      | Some _ => false
      | None => true
      end
  | [] => true
  end.

Definition parseInt_NaN (s : jsstring) : bool :=
  let s1 := skip_white_space s in
  match s1 with
  | c :: r =>
      if (c =? 45)%N then no_digit r
      else if (c =? 43)%N then no_digit r
      else no_digit s1
  | [] => no_digit s1
  end.

(** The handler on the text of the route parameter. A [NaN] is bound as
    NULL, which no key equals, so the row is null and the answer two nulls.
    [None] is left for a number of magnitude 2^53 or more, which the runtime
    rounds before it is bound. *)
Definition fastest_route (db : table) (param : jsstring) : option solve_response :=
  match parseInt param with
  | Some gameNumber => Some (fastest_handler db gameNumber)
  | None =>
      if parseInt_NaN param
      then Some {| fastestTimeMs := None; fastestGuesses := None |}
      else None
  end.

(** The address the client fetches for the game [gn]: the parameter of
    [`/api/fastest/${gn}`]. *)
Definition fastest_param (gn : Z) : jsstring := decimal gn.

(** ** The client: the countdown to the next word

    [Date.UTC] and the time value of [new Date(value)], after ECMA-262. *)

(** Days of the year before the month [m], from 0 to 11. *)
Definition monthStart (m leap : Z) : Z :=
  match m with
  | 0 => 0
  | 1 => 31
  | 2 => 59 + leap
  | 3 => 90 + leap
  | 4 => 120 + leap
  | 5 => 151 + leap
  | 6 => 181 + leap
  | 7 => 212 + leap
  | 8 => 243 + leap
  | 9 => 273 + leap
  | 10 => 304 + leap
  | _ => 334 + leap
  end.

(** [MakeDay]: the day number of the first of the month [month mod 12] of
    the year [year + month / 12], plus [date - 1]. *)
Definition MakeDay (year month date : Z) : Z :=
  let ym := year + month / 12 in
  let mn := month mod 12 in
  JsDate.DayFromYear ym
  + monthStart mn (if JsDate.DaysInYear ym =? 366 then 1 else 0)
  + date - 1.

(** [TimeClip]: [None] stands for [NaN]. *)
Definition TimeClip (t : Z) : option Z :=
  if Z.abs t <=? 8640000000000000 then Some t else None.

(** [Date.UTC(year, month, date)]: a year from 0 to 99 is read as 19xx. *)
Definition Date_UTC (year month date : Z) : option Z :=
  let yr := if (0 <=? year) && (year <=? 99) then 1900 + year else year in
  TimeClip (MakeDay yr month date * JsDate.msPerDay).

(** [s.padStart(2, "0")] *)
Definition padStart2 (s : jsstring) : jsstring :=
  replicate (2 - length s) 48%N ++ s.

(** The instant the countdown runs to: [tomorrow.getTime()], as a function
    of the clock reading. *)
Definition tomorrow (now : Z) : option Z :=
  Date_UTC (JsDate.getUTCFullYear now) (JsDate.getUTCMonth now)
           (JsDate.getUTCDate now + 1).

(** The text [update] sets as countdown. An invalid date gives [NaN] for the
    difference and for the three numbers. *)
Definition countdown (now : Z) : jsstring :=
  match tomorrow now with
  | None => str "NaN:NaN:NaN"
  | Some t =>
      let diff := t - now in
      let h := diff / 3600000 in
      let m := Z.rem diff 3600000 / 60000 in
      let s := Z.rem diff 60000 / 1000 in
      padStart2 (decimal h) ++ str ":" ++ padStart2 (decimal m) ++ str ":" ++
      padStart2 (decimal s)
  end.

(** ** The client: the colours of the keyboard *)

Inductive TileState := Correct | Present | Absent | Empty | Tbd.

#[global] Instance TileState_eq_dec : EqDecision TileState.
Proof. solve_decision. Defined.

(** The tags of the answer body, as the client reads them. *)
Definition tile_of_tag (t : tag) : TileState :=
  match t with
  | correct => Correct
  | present => Present
  | absent => Absent
  end.

(** The property name a letter of the row gives: the letter, or
    ["undefined"] past the end of the row. *)
Definition property_key (letter : option code_unit) : jsstring :=
  match letter with
  | Some c => [c]
  | None => str "undefined"
  end.

(** Body of the loop over the new row, at index [i]. With no state at [i]
    the last branch would store [undefined] where there was nothing, which
    no read of the object tells from nothing. *)
Definition key_step (letters : jsstring) (states : list TileState)
    (next : gmap jsstring TileState) (i : nat) : gmap jsstring TileState :=
  let letter := property_key (letters !! i) in
  let existing := next !! letter in
  match states !! i with
  | Some Correct => <[letter := Correct]> next
  | Some Present =>
      if decide (existing = Some Correct) then next
      else <[letter := Present]> next
  | Some state =>
      match existing with
      | None => <[letter := state]> next
      | Some _ => next
      end
  | None => next
  end.

(** The updater passed to [setKeyStates], on the letters and states of the
    new row. *)
Definition updateKeyStates (letters : jsstring) (states : list TileState)
    (prev : gmap jsstring TileState) : gmap jsstring TileState :=
  foldl (key_step letters states) prev (seq 0 5).

(** The keyboard after rows of guesses scored against one answer, from no
    colours at all. *)
Definition keyboard_after (answer : jsstring) (guesses : list jsstring)
  : gmap jsstring TileState :=
  foldl (λ keys guess,
           updateKeyStates guess (tile_of_tag <$> evaluate guess answer) keys)
        ∅ guesses.

(** How far a key's colour has got. *)
Definition rank (s : option TileState) : nat :=
  match s with
  | None => 0
  | Some Correct => 3
  | Some Present => 2
  | Some _ => 1
  end.


(** ** The record a submission leaves, for the statements about the table *)

(** The row of a game after a submission of [(t, n)] that found [cur] there. *)
Definition keep (cur : option row) (sub : Z * Z) : option row :=
  match cur with
  | None => Some (Row sub.1 sub.2)
  | Some r => if sub.1 <? time_ms r then Some (Row sub.1 sub.2) else Some r
  end.

(** Submissions [(timeMs, numGuesses)] for the game [g], as requests. *)
Definition submissions (g : Z) (subs : list (Z * Z)) : list solve_request :=
  (λ sub, SolveRequest g sub.1 sub.2) <$> subs.

(** One call after the other: the first call's three statements, then the
    second's, or the other way round. *)
Definition serial (schedule : list bool) : Prop :=
  schedule = [false; false; false; true; true; true] ∨
  schedule = [true; true; true; false; false; false].

(** A text that does not go on with a decimal digit. *)
Definition stops (tail : jsstring) : Prop :=
  match tail with
  | c :: _ => digit_value 10 c = None
  | [] => True
  end.

(** What may follow the digits of [z] for [parseInt] to read [z]: nothing,
    or a code unit that is no decimal digit, nor [x] or [X] after a lone 0. *)
Definition may_follow (z : Z) (tail : jsstring) : Prop :=
  match tail with
  | c :: _ => digit_value 10 c = None ∧ (z = 0 → c ≠ 120%N ∧ c ≠ 88%N)
  | [] => True
  end.

(** ** Two calls in flight, on a game [g] that had the record [r0] *)

(** A time a call has read for the game [g] was stored then, so it is no
    more than the time of [r0]. *)
Definition read_ok (g : Z) (r0 : row) (req : solve_request) (pc : solve_pc) : Prop :=
  match pc with
  | AtWrite current =>
      gameNumber req = g → ∃ t, current = Some t ∧ t <= time_ms r0
  | _ => True
  end.

(** The game still has a record, no slower than [r0]: [r0] itself or the
    row of one of the two calls [a] and [b]. *)
Definition stored_ok (a b : solve_request) (g : Z) (r0 : row) (db : table) : Prop :=
  ∃ r, db !! g = Some r ∧ time_ms r <= time_ms r0 ∧
       (r = r0 ∨
        (gameNumber a = g ∧ r = Row (timeMs a) (numGuesses a)) ∨
        (gameNumber b = g ∧ r = Row (timeMs b) (numGuesses b))).

(** * Properties *)

(** ** Arrays *)

Lemma JsArray_set_in_range (a : JsArray.t) i v :
  (i < length a)%nat → JsArray.set a i v = <[i := Some v]> a.
Proof. intros Hi. unfold JsArray.set. by rewrite decide_True. Qed.

Lemma JsArray_get_lookup (a : JsArray.t) i v :
  a !! i = Some v → JsArray.get a i = v.
Proof. intros H. unfold JsArray.get. by rewrite H. Qed.

Lemma JsArray_indexOf_found (a : JsArray.t) x idx :
  JsArray.indexOf a x = Some idx → ∃ c, x = Some c ∧ a !! idx = Some (Some c).
Proof.
  revert idx. induction a as [|v a IH]; intros idx; simpl; [done|].
  destruct x as [c|], v as [d|]; try case_decide; simplify_eq/=;
    try (intros [= <-]; by eauto);
    destruct (JsArray.indexOf a _) as [k|] eqn:Hk; simpl; intros [= <-];
    by apply IH.
Qed.

Lemma holds_insert c (a : JsArray.t) i v w :
  a !! i = Some v →
  (holds c (<[i := w]> a) + (if decide (v = Some c) then 1 else 0) =
   holds c a + (if decide (w = Some c) then 1 else 0))%nat.
Proof.
  revert i. induction a as [|u a IH]; intros [|i] Hi; simplify_eq/=; [lia|].
  specialize (IH _ Hi). lia.
Qed.

Lemma marked_insert c (guess : jsstring) (r : list tag) i g u :
  guess !! i = Some g → r !! i = Some absent →
  marked c guess (<[i := u]> r) =
  (marked c guess r + (if decide (g = c ∧ u ≠ absent) then 1 else 0))%nat.
Proof.
  revert r i. induction guess as [|h guess IH]; intros [|t r] [|i] Hg Hr;
    simplify_eq/=.
  - rewrite (decide_False (P := g = c ∧ absent ≠ absent)) by (by intros [_ ?]). lia.
  - rewrite (IH r i) by done. lia.
Qed.

Lemma marked_no_letter c (guess : jsstring) (r : list tag) :
  c ∉ guess → marked c guess r = 0%nat.
Proof.
  revert r. induction guess as [|g guess IH]; intros [|u r] Hc; simpl; try done.
  rewrite not_elem_of_cons in Hc. destruct Hc as [Hne Hc].
  rewrite decide_False by (intros [-> _]; by apply Hne). by rewrite IH.
Qed.

Lemma count_tag_insert_absent (r : list tag) i u :
  r !! i = Some absent → u ≠ correct →
  count_tag correct (<[i := u]> r) = count_tag correct r.
Proof.
  unfold count_tag. revert i. induction r as [|t r IH]; intros [|i] Hi Hu;
    simplify_eq/=.
  - rewrite !filter_cons. rewrite !decide_False by done. done.
  - rewrite !filter_cons. case_decide; simpl; by rewrite IH.
Qed.

(** ** The first loop of [evaluate] *)

Lemma first_pass_at (st : locals) i g a :
  guessLetters st !! i = Some (Some g) → answerLetters st !! i = Some (Some a) →
  first_pass st i =
  if decide (g = a)
  then {| result := <[i := correct]> (result st);
          answerLetters := <[i := Some underscore]> (answerLetters st);
          guessLetters := <[i := Some underscore]> (guessLetters st) |}
  else st.
Proof.
  intros Hg Ha. unfold first_pass.
  rewrite (JsArray_get_lookup _ _ _ Hg), (JsArray_get_lookup _ _ _ Ha).
  destruct (decide (g = a)) as [->|Hne].
  - rewrite decide_True by done.
    rewrite !JsArray_set_in_range by (by eapply lookup_lt_Some). done.
  - rewrite decide_False by congruence. done.
Qed.

(** The loop from index [length gp] on, over the letters not yet visited. *)
Lemma first_pass_run (gs ans : jsstring) (rp : list tag) (ap gp : JsArray.t) :
  length gs = length ans → length rp = length gp → length ap = length gp →
  foldl first_pass
    {| result := rp ++ replicate (length gs) absent;
       answerLetters := ap ++ JsArray.split ans;
       guessLetters := gp ++ JsArray.split gs |}
    (seq (length gp) (length gs)) =
  {| result := rp ++ result (after_first_pass gs ans);
     answerLetters := ap ++ answerLetters (after_first_pass gs ans);
     guessLetters := gp ++ guessLetters (after_first_pass gs ans) |}.
Proof.
  revert ans rp ap gp.
  induction gs as [|g gs IH]; intros [|a ans] rp ap gp Hlen Hr Ha;
    simplify_eq/=; [done|].
  rewrite (first_pass_at _ _ g a); simpl;
    [| by apply list_lookup_middle | by apply list_lookup_middle].
  assert (∀ {A} (l1 l2 : list A) x y n, n = length l1 →
            <[n := y]> (l1 ++ x :: l2) = (l1 ++ [y]) ++ l2) as Hins.
  { intros A l1 l2 x y n ->. rewrite insert_app_r_alt by lia.
    rewrite Nat.sub_diag. simpl. by rewrite <- app_assoc. }
  assert (∀ {A} (l1 l2 : list A) x, l1 ++ x :: l2 = (l1 ++ [x]) ++ l2) as Hmid.
  { intros A l1 l2 x. by rewrite <- app_assoc. }
  replace (S (length gp)) with (length (gp ++ [Some g])) at 1
    by (rewrite length_app; simpl; lia).
  destruct (decide (g = a)) as [->|Hne].
  - rewrite (Hins _ rp), (Hins _ ap), (Hins _ gp) by done.
    replace (length (gp ++ [Some a])) with (length (gp ++ [Some underscore]))
      by (by rewrite !length_app).
    rewrite (IH ans) by (rewrite ?length_app; simpl; lia).
    by rewrite <- !app_assoc.
  - rewrite (Hmid _ rp), (Hmid _ ap), (Hmid _ gp).
    rewrite (IH ans) by (rewrite ?length_app; simpl; lia).
    by rewrite <- !app_assoc.
Qed.

Lemma first_pass_five (guess answer : jsstring) :
  length guess = 5%nat → length answer = 5%nat →
  foldl first_pass (evaluate_init guess answer) (seq 0 5) =
  after_first_pass guess answer.
Proof.
  intros Hg Ha.
  pose proof (first_pass_run guess answer [] [] []) as H.
  rewrite Hg in H. apply H; [congruence|done|done].
Qed.

Lemma after_first_pass_correct (guess answer : jsstring) :
  count_tag correct (result (after_first_pass guess answer)) = matches guess answer.
Proof.
  unfold count_tag. simpl. revert answer.
  induction guess as [|g guess IH]; intros [|a answer]; simpl; try done.
  rewrite filter_cons. destruct (decide (g = a)); simpl; by rewrite IH.
Qed.


Lemma after_first_pass_guess (guess answer : jsstring) j g :
  length guess = length answer → guess !! j = Some g →
  guessLetters (after_first_pass guess answer) !! j = Some (Some underscore) ∨
  guessLetters (after_first_pass guess answer) !! j = Some (Some g).
Proof.
  simpl. revert answer j.
  induction guess as [|h guess IH]; intros [|a answer] [|j] Hlen Hj;
    simplify_eq/=.
  - case_decide; auto.
  - by apply IH.
Qed.


Lemma after_first_pass_pending (guess answer : jsstring) j :
  length guess = length answer → (j < length guess)%nat →
  JsArray.get (guessLetters (after_first_pass guess answer)) j ≠ Some underscore →
  result (after_first_pass guess answer) !! j = Some absent.
Proof.
  unfold JsArray.get. simpl. revert answer j.
  induction guess as [|h guess IH]; intros [|a answer] [|j] Hlen Hj;
    simplify_eq/=; try lia.
  - case_decide; [done|]. done.
  - apply IH; [done|lia].
Qed.

Section AfterFirstPass.
Variable c : code_unit.
Hypothesis c_letter : c ≠ underscore.

Lemma after_first_pass_count (guess answer : jsstring) :
  length guess = length answer →
  (marked c guess (result (after_first_pass guess answer)) +
   holds c (answerLetters (after_first_pass guess answer)) =
   occurrences c answer)%nat.
Proof.
  unfold occurrences. simpl. revert answer.
  induction guess as [|g guess IH]; intros [|a answer] Hlen; simplify_eq/=;
    [done|].
  specialize (IH _ Hlen). rewrite filter_cons.
  destruct (decide (g = a)) as [->|Hga].
  - rewrite (decide_False (P := Some underscore = Some c)) by congruence.
    destruct (decide (a = c)) as [->|Hac].
    + rewrite decide_True by done. simpl. lia.
    + rewrite decide_False by (by intros [? _]). lia.
  - rewrite (decide_False (P := g = c ∧ absent ≠ absent)) by (by intros [_ ?]).
    destruct (decide (a = c)) as [->|Hac].
    + rewrite decide_True by done. simpl. lia.
    + rewrite decide_False by congruence. lia.
Qed.

End AfterFirstPass.

(** ** The second loop of [evaluate]

    What every iteration keeps, for a fixed letter [c]: each position tagged
    for [c] has used up one [c] of the answer's letters. [pending] lists the
    indices the loop has yet to visit. *)

Section SecondPass.
Variables guess answer : jsstring.
Variable c : code_unit.
Hypothesis c_letter : c ≠ underscore.

Record second_pass_inv (pending : list nat) (st : locals) : Prop := {
  inv_result_len : length (result st) = length guess;
  inv_guess : ∀ j g, guess !! j = Some g →
    guessLetters st !! j = Some (Some underscore) ∨
    guessLetters st !! j = Some (Some g);
  inv_pending : ∀ j, j ∈ pending →
    JsArray.get (guessLetters st) j ≠ Some underscore →
    result st !! j = Some absent;
  inv_count :
    (marked c guess (result st) + holds c (answerLetters st) =
     occurrences c answer)%nat;
  inv_correct : count_tag correct (result st) = matches guess answer
}.

Lemma second_pass_keeps i pending st :
  (i < length guess)%nat → i ∉ pending →
  second_pass_inv (i :: pending) st →
  second_pass_inv pending (second_pass st i).
Proof.
  intros Hi Hfresh [Hlen Hg Hpend Hcount Hcorr].
  assert (second_pass_inv pending st) as Hsame.
  { split; try done. intros j Hj. apply Hpend. by right. }
  unfold second_pass. case_decide as Hus; [done|].
  destruct (JsArray.indexOf _ _) as [idx|] eqn:Hidx; [|done].
  destruct (lookup_lt_is_Some_2 guess i Hi) as [g Hgi].
  assert (guessLetters st !! i = Some (Some g)) as Hgl.
  { destruct (Hg _ _ Hgi) as [H|H]; [|done].
    by rewrite (JsArray_get_lookup _ _ _ H) in Hus. }
  rewrite (JsArray_get_lookup _ _ _ Hgl) in Hidx, Hus.
  apply JsArray_indexOf_found in Hidx as (g' & [= <-] & Hal).
  assert (result st !! i = Some absent) as Hri.
  { apply Hpend; [by left|]. by rewrite (JsArray_get_lookup _ _ _ Hgl). }
  rewrite JsArray_set_in_range by (by eapply lookup_lt_Some).
  split; simpl.
  - by rewrite length_insert.
  - done.
  - intros j Hj Hne. rewrite list_lookup_insert_ne by (by intros ->).
    apply Hpend; [by right|done].
  - rewrite (marked_insert _ _ _ _ g) by done.
    pose proof (holds_insert c _ _ _ (Some underscore) Hal) as Hh.
    rewrite (decide_False (P := Some underscore = Some c)) in Hh by congruence.
    destruct (decide (g = c)) as [->|Hgc].
    + rewrite decide_True in Hh by done.
      rewrite decide_True by done. lia.
    + rewrite decide_False in Hh by congruence.
      rewrite decide_False by (by intros [? _]). lia.
  - by rewrite count_tag_insert_absent.
Qed.

Lemma second_pass_run pending st :
  NoDup pending → (∀ i, i ∈ pending → (i < length guess)%nat) →
  second_pass_inv pending st →
  second_pass_inv [] (foldl second_pass st pending).
Proof.
  revert st. induction pending as [|i pending IH]; intros st Hnd Hlt Hinv;
    simpl; [done|].
  apply NoDup_cons in Hnd as [Hfresh Hnd].
  apply IH; [done| |].
  - intros j Hj. apply Hlt. by right.
  - apply second_pass_keeps; [|done|done]. apply Hlt. by left.
Qed.

Lemma evaluate_inv :
  length guess = 5%nat → length answer = 5%nat →
  (marked c guess (evaluate guess answer) ≤ occurrences c answer)%nat ∧
  count_tag correct (evaluate guess answer) = matches guess answer.
Proof.
  intros Hg Ha. unfold evaluate. rewrite first_pass_five by done.
  assert (length guess = length answer) as Hlen by congruence.
  destruct (second_pass_run (seq 0 5) (after_first_pass guess answer))
    as [_ _ _ Hcount Hcorr].
  - apply NoDup_seq.
  - intros i Hi. apply elem_of_seq in Hi. lia.
  - split.
    + simpl. rewrite length_zip_with. lia.
    + intros j g. by apply after_first_pass_guess.
    + intros j Hj. apply elem_of_seq in Hj.
      apply after_first_pass_pending; [done|lia].
    + by apply after_first_pass_count.
    + apply after_first_pass_correct.
  - split; [lia|done].
Qed.
End SecondPass.

Lemma evaluate_length (guess answer : jsstring) : length (evaluate guess answer) = 5%nat.
Proof.
  unfold evaluate.
  assert (∀ l st, length (result (foldl first_pass st l)) = length (result st)) as H1.
  { induction l as [|i l IH]; intros st; simpl; [done|].
    rewrite IH. unfold first_pass. case_decide; simpl; by rewrite ?length_insert. }
  assert (∀ l st, length (result (foldl second_pass st l)) = length (result st)) as H2.
  { induction l as [|i l IH]; intros st; simpl; [done|].
    rewrite IH. unfold second_pass. case_decide; [done|].
    destruct (JsArray.indexOf _ _); simpl; by rewrite ?length_insert. }
  by rewrite H2, H1.
Qed.

Lemma lowercase_not_underscore (w : jsstring) :
  Forall lowercase w → underscore ∉ w.
Proof.
  intros Hw Hin. rewrite Forall_forall in Hw. specialize (Hw _ Hin).
  unfold lowercase, underscore in Hw. lia.
Qed.

(** C1. For five-letter lowercase words [guess] and [answer], [evaluate]
    gives at most as many [correct] tags as there are positions where the two
    words carry the same letter, and for every letter [c] the positions tagged
    [correct] or [present] whose guess letter is [c] are at most as many as
    the occurrences of [c] in the answer. *)
Theorem evaluate_tag_bounds (guess answer : jsstring) :
  length guess = 5%nat → length answer = 5%nat →
  Forall lowercase guess → Forall lowercase answer →
  (count_tag correct (evaluate guess answer) ≤ matches guess answer)%nat ∧
  ∀ c, (marked c guess (evaluate guess answer) ≤ occurrences c answer)%nat.
Proof.
  intros Hg Ha Hlg Hla. split.
  - destruct (evaluate_inv guess answer 0%N) as [_ ->]; done.
  - intros c. destruct (decide (c = underscore)) as [->|Hc].
    + rewrite marked_no_letter by (by apply lowercase_not_underscore). lia.
    + by destruct (evaluate_inv guess answer c).
Qed.

Lemma evaluate_tag_bounds_witness :
  (count_tag correct (evaluate (str "crane") (str "caper")) ≤
   matches (str "crane") (str "caper"))%nat ∧
  ∀ c, (marked c (str "crane") (evaluate (str "crane") (str "caper")) ≤
        occurrences c (str "caper"))%nat.
Proof.
  apply (evaluate_tag_bounds (str "crane") (str "caper"));
    [reflexivity | reflexivity | |];
    repeat constructor; unfold lowercase; vm_compute; discriminate.
Defined.

Example evaluate_crane_caper :
  evaluate (str "crane") (str "caper") = [correct; present; present; absent; present].
Proof. vm_compute. reflexivity. Qed.

(** ** Repeated letters: "speed" against "erase" *)

Lemma evaluate_speed_erase_not_one_e :
  marked letter_e (str "speed") (evaluate (str "speed") (str "erase")) ≠ 1%nat.
Proof. vm_compute. discriminate. Qed.

(** C2, as the code has it. Against "erase", which has two "e", both "e" of
    "speed" are tagged [present], each for an "e" of the answer of its own:
    the result is present, absent, present, present, absent, and the tagged
    "e" are as many as the "e" of the answer, two. *)
Theorem evaluate_speed_erase :
  evaluate (str "speed") (str "erase") = [present; absent; present; present; absent] ∧
  marked letter_e (str "speed") (evaluate (str "speed") (str "erase")) = 2%nat ∧
  occurrences letter_e (str "erase") = 2%nat.
Proof. vm_compute. repeat split; reflexivity. Qed.

(** ** Exact matches *)

Lemma matches_le (guess answer : jsstring) : (matches guess answer ≤ length guess)%nat.
Proof.
  revert answer. induction guess as [|g guess IH]; intros [|a answer]; simpl;
    try lia.
  specialize (IH answer). case_decide; lia.
Qed.

Lemma matches_all (guess answer : jsstring) :
  length guess = length answer →
  matches guess answer = length guess ↔ guess = answer.
Proof.
  revert answer. induction guess as [|g guess IH]; intros [|a answer] Hlen;
    simplify_eq/=; [done|].
  pose proof (matches_le guess answer). specialize (IH _ Hlen).
  case_decide as Hga; split.
  - intros H'. f_equal; [done|]. apply IH. lia.
  - intros [= _ ->%IH]. lia.
  - lia.
  - by intros [= ? _].
Qed.

Lemma count_tag_all t (r : list tag) :
  count_tag t r = length r ↔ r = replicate (length r) t.
Proof.
  unfold count_tag. induction r as [|u r IH]; simpl; [done|].
  rewrite filter_cons. pose proof (length_filter (λ u, u = t) r).
  case_decide as Hu; simpl; split.
  - intros H'. subst u. f_equal. apply IH. lia.
  - intros [= _ ->%IH]. lia.
  - lia.
  - by intros [= ? _].
Qed.

Lemma evaluate_all_correct (guess answer : jsstring) :
  length guess = 5%nat → length answer = 5%nat →
  evaluate guess answer = replicate 5 correct ↔ guess = answer.
Proof.
  intros Hg Ha.
  destruct (evaluate_inv guess answer 0%N) as [_ Hcount]; [done..|].
  pose proof (evaluate_length guess answer) as Hlen.
  rewrite <- matches_all by congruence.
  rewrite <- Hcount, Hg, <- Hlen, count_tag_all. by rewrite Hlen.
Qed.

(** ** 32-bit arithmetic of the hash *)

Lemma wrap_range z : -2147483648 <= Int32.wrap z < 2147483648.
Proof. unfold Int32.wrap. Z.div_mod_to_equations. lia. Qed.

Lemma wrap_small z : -2147483648 <= z < 2147483648 → Int32.wrap z = z.
Proof. intros Hz. unfold Int32.wrap. Z.div_mod_to_equations. lia. Qed.

Lemma wrap_congr a b :
  (a - b) mod 4294967296 = 0 → Int32.wrap a = Int32.wrap b.
Proof. unfold Int32.wrap. intros H. Z.div_mod_to_equations. lia. Qed.

Lemma wrap_diff z : (Int32.wrap z - z) mod 4294967296 = 0.
Proof. unfold Int32.wrap. Z.div_mod_to_equations. lia. Qed.

Lemma or_zero z : Int32.or z 0 = Int32.wrap z.
Proof.
  unfold Int32.or. rewrite (wrap_small 0) by lia. rewrite Z.lor_0_r.
  apply wrap_small, wrap_range.
Qed.

Lemma shl_five z : Int32.shl z 5 = Int32.wrap (Int32.wrap z * 32).
Proof. unfold Int32.shl. by rewrite Z.shiftl_mul_pow2. Qed.

(** The loop body and the recurrence of the specification agree on every
    number, bit for bit. *)
Lemma hash_step_spec hash c : hash_step hash c = spec_hash_step hash c.
Proof.
  unfold hash_step, spec_hash_step. rewrite or_zero, shl_five.
  apply wrap_congr.
  pose proof (wrap_diff hash) as H1.
  pose proof (wrap_diff (Int32.wrap hash * 32)) as H2.
  revert H1 H2. generalize (Int32.wrap (Int32.wrap hash * 32)).
  generalize (Int32.wrap hash). intros w v H1 H2.
  Z.div_mod_to_equations. lia.
Qed.

Lemma hash_loop_spec s : hash_loop s = spec_hash s.
Proof.
  unfold hash_loop, spec_hash. generalize 0.
  induction s as [|c s IH]; intros h; simpl; [done|].
  by rewrite hash_step_spec, IH.
Qed.

Lemma hash_loop_range s : -2147483648 <= hash_loop s < 2147483648.
Proof.
  unfold hash_loop.
  assert (∀ h, -2147483648 <= h < 2147483648 →
               -2147483648 <= foldl hash_step h s < 2147483648) as H.
  { induction s as [|c s IH]; intros h Hh; simpl; [done|].
    apply IH. rewrite hash_step_spec. apply wrap_range. }
  apply H. lia.
Qed.

(** ** The calendar *)

Lemma YearFromTime_bracket t :
  JsDate.DayFromYear (JsDate.YearFromTime t) <= JsDate.Day t
  < JsDate.DayFromYear (JsDate.YearFromTime t + 1).
Proof.
  unfold JsDate.YearFromTime. generalize (JsDate.Day t). intros d. cbv zeta.
  repeat case_match;
    repeat match goal with
      | H : (_ <? _) = _ |- _ => first [apply Z.ltb_lt in H | apply Z.ltb_ge in H]
      | H : (_ <=? _) = _ |- _ => first [apply Z.leb_le in H | apply Z.leb_gt in H]
      end;
    unfold JsDate.DayFromYear in *; Z.div_mod_to_equations; lia.
Qed.

Lemma DayFromYear_succ y :
  JsDate.DayFromYear (y + 1) = JsDate.DayFromYear y + JsDate.DaysInYear y.
Proof.
  unfold JsDate.DayFromYear, JsDate.DaysInYear.
  repeat match goal with
    | |- context [?a =? ?b] => destruct (Z.eqb_spec a b)
    end; simpl; Z.div_mod_to_equations; lia.
Qed.

(** The accessors give a month from 0 to 11 and a day of the month from 1. *)
Lemma month_and_date_range t :
  0 <= JsDate.getUTCMonth t <= 11 ∧ 1 <= JsDate.getUTCDate t <= 31.
Proof.
  pose proof (YearFromTime_bracket t) as [Hlo Hhi].
  rewrite DayFromYear_succ in Hhi.
  unfold JsDate.getUTCMonth, JsDate.getUTCDate, JsDate.DateFromTime,
    JsDate.MonthFromTime, JsDate.InLeapYear, JsDate.DayWithinYear.
  generalize dependent (JsDate.Day t). intros d Hlo Hhi.
  generalize dependent (JsDate.DayFromYear (JsDate.YearFromTime t)).
  intros y0 Hlo Hhi.
  assert (JsDate.DaysInYear (JsDate.YearFromTime t) = 365 ∨
          JsDate.DaysInYear (JsDate.YearFromTime t) = 366) as Hdays.
  { unfold JsDate.DaysInYear. repeat case_match; auto. }
  generalize dependent (JsDate.DaysInYear (JsDate.YearFromTime t)).
  intros n Hhi Hdays.
  destruct Hdays as [-> | ->]; simpl;
    repeat match goal with
      | |- context [?a <? ?b] => destruct (Z.ltb_spec a b)
      end; lia.
Qed.

Lemma DayFromYear_mono y y' :
  y < y' → JsDate.DayFromYear y < JsDate.DayFromYear y'.
Proof. intros H. unfold JsDate.DayFromYear. Z.div_mod_to_equations. lia. Qed.

(** [YearFromTime t] is the largest year that starts no later than [t]. *)
Lemma YearFromTime_largest t y :
  JsDate.TimeFromYear y <= t ↔ y <= JsDate.YearFromTime t.
Proof.
  pose proof (YearFromTime_bracket t) as [Hlo Hhi].
  assert (JsDate.TimeFromYear y <= t ↔ JsDate.DayFromYear y <= JsDate.Day t) as ->.
  { unfold JsDate.TimeFromYear, JsDate.Day, JsDate.msPerDay.
    Z.div_mod_to_equations. lia. }
  split; intros H.
  - destruct (Z_le_gt_dec y (JsDate.YearFromTime t)) as [|Hgt]; [done|].
    assert (JsDate.YearFromTime t + 1 <= y) as [Hlt| <-]%Z.le_lteq by lia;
      [apply DayFromYear_mono in Hlt|]; lia.
  - apply Z.le_lteq in H as [Hlt%DayFromYear_mono | ->]; lia.
Qed.

Lemma same_day_same_date t1 t2 :
  JsDate.Day t1 = JsDate.Day t2 →
  JsDate.getUTCFullYear t1 = JsDate.getUTCFullYear t2 ∧
  JsDate.getUTCMonth t1 = JsDate.getUTCMonth t2 ∧
  JsDate.getUTCDate t1 = JsDate.getUTCDate t2.
Proof.
  intros H.
  unfold JsDate.getUTCFullYear, JsDate.getUTCMonth, JsDate.getUTCDate.
  assert (JsDate.YearFromTime t1 = JsDate.YearFromTime t2) as Hy
    by (unfold JsDate.YearFromTime; by rewrite H).
  assert (JsDate.DayWithinYear t1 = JsDate.DayWithinYear t2) as Hd
    by (unfold JsDate.DayWithinYear; by rewrite H, Hy).
  assert (JsDate.InLeapYear t1 = JsDate.InLeapYear t2) as Hl
    by (unfold JsDate.InLeapYear; by rewrite Hy).
  assert (JsDate.MonthFromTime t1 = JsDate.MonthFromTime t2) as Hm
    by (unfold JsDate.MonthFromTime; by rewrite Hd, Hl).
  unfold JsDate.DateFromTime. by rewrite Hy, Hm, Hd, Hl.
Qed.

Lemma start_value : start = 1735689600000.
Proof. reflexivity. Qed.

Example start_is_new_year :
  (JsDate.getUTCFullYear start, JsDate.getUTCMonth start, JsDate.getUTCDate start)
  = (2025, 0, 1) ∧ start mod JsDate.msPerDay = 0.
Proof. split; reflexivity. Qed.

Example leap_day : dateStr 1709164800000 = str "2024-2-29".
Proof. vm_compute. reflexivity. Qed.

(** ** The game number *)

(** C6. [getGameNumber] is the floor of [(now - epoch) / 86400000] with the
    epoch 2025-01-01T00:00:00Z: it is [n] exactly during the [n]-th day after
    the epoch, it counts UTC days, the millisecond before a UTC midnight and
    that midnight are one game apart, and it never decreases with the clock. *)
Theorem getGameNumber_days :
  start = 1735689600000 ∧
  (∀ now, getGameNumber now = (now - 1735689600000) / 86400000) ∧
  (∀ now n, getGameNumber now = n ↔
            start + n * 86400000 <= now < start + (n + 1) * 86400000) ∧
  (∀ now, getGameNumber now = JsDate.Day now - JsDate.Day start) ∧
  (∀ midnight, midnight mod 86400000 = 0 →
               getGameNumber midnight = getGameNumber (midnight - 1) + 1) ∧
  (∀ now1 now2, now1 <= now2 → getGameNumber now1 <= getGameNumber now2).
Proof.
  split; [reflexivity|].
  unfold getGameNumber, JsDate.Day, JsDate.msPerDay. rewrite start_value.
  repeat split; intros; Z.div_mod_to_equations; lia.
Qed.

Lemma getGameNumber_days_witness :
  getGameNumber 1735776000000 = getGameNumber 1735775999999 + 1 ∧
  getGameNumber 1735775999999 <= getGameNumber 1735776000000.
Proof.
  destruct getGameNumber_days as (_ & _ & _ & _ & Hmidnight & Hmono).
  split.
  - apply (Hmidnight 1735776000000). reflexivity.
  - apply (Hmono 1735775999999 1735776000000). lia.
Defined.

(** ** The daily word *)

Lemma decimal_digit z : 0 <= z <= 9 → decimal z = [Z.to_N (48 + z)].
Proof.
  intros Hz.
  assert (z = 0 ∨ z = 1 ∨ z = 2 ∨ z = 3 ∨ z = 4 ∨ z = 5 ∨ z = 6 ∨ z = 7 ∨
          z = 8 ∨ z = 9) as H by lia.
  repeat destruct H as [->|H]; try subst z; reflexivity.
Qed.

Section WorkerProperties.
Variable WORDS : list jsstring.
Variables toLowerCase trim : jsstring → jsstring.

Lemma getDailyWord_index today :
  getDailyWord WORDS today =
  if decide (WORDS = []) then None
  else WORDS !! Z.to_nat (Z.abs (spec_hash (dateStr today))
                          mod Z.of_nat (length WORDS)).
Proof.
  unfold getDailyWord. rewrite hash_loop_spec.
  destruct (Z.eqb_spec (Z.of_nat (length WORDS)) 0) as [Hz|Hz].
  - rewrite decide_True; [done|]. apply length_zero_iff_nil. lia.
  - rewrite decide_False by (intros Hnil; by rewrite Hnil in Hz).
    rewrite Z.rem_mod_nonneg; [done|lia|lia].
Qed.

Lemma getDailyWord_defined today : WORDS ≠ [] → is_Some (getDailyWord WORDS today).
Proof.
  intros Hne. rewrite getDailyWord_index, decide_False by done.
  apply lookup_lt_is_Some.
  assert (length WORDS ≠ 0%nat) by (by intros ?%length_zero_iff_nil).
  pose proof (Z.mod_pos_bound (Z.abs (spec_hash (dateStr today)))
                (Z.of_nat (length WORDS))).
  lia.
Qed.

Lemma getDailyWord_in_list today answer :
  getDailyWord WORDS today = Some answer → answer ∈ WORDS.
Proof.
  rewrite getDailyWord_index. case_decide; [done|].
  intros Hw. by eapply list_elem_of_lookup_2.
Qed.

Lemma getDailyWord_same_date t1 t2 :
  JsDate.getUTCFullYear t1 = JsDate.getUTCFullYear t2 →
  JsDate.getUTCMonth t1 = JsDate.getUTCMonth t2 →
  JsDate.getUTCDate t1 = JsDate.getUTCDate t2 →
  getDailyWord WORDS t1 = getDailyWord WORDS t2.
Proof. intros Hy Hm Hd. unfold getDailyWord, dateStr. by rewrite Hy, Hm, Hd. Qed.

(** C7. For every clock reading, [getDailyWord] hashes the unpadded text
    year-month-day of the UTC date with a loop that equals, bit for bit,
    the recurrence [hash * 31 + charCode] in wrap-around 32-bit signed
    arithmetic, and returns [WORDS[abs(hash) % N]]; readings with the same
    UTC date, hence readings of the same UTC day, give the same word. *)
Theorem getDailyWord_spec (today : Z) :
  dateStr today =
    decimal (JsDate.getUTCFullYear today) ++ str "-" ++
    decimal (JsDate.getUTCMonth today + 1) ++ str "-" ++
    decimal (JsDate.getUTCDate today) ∧
  (∀ z, 0 <= z <= 9 → decimal z = [Z.to_N (48 + z)]) ∧
  (∀ hash c, hash_step hash c = Int32.wrap (hash * 31 + Z.of_N c)) ∧
  hash_loop (dateStr today) = spec_hash (dateStr today) ∧
  getDailyWord WORDS today =
    (if decide (WORDS = []) then None
     else WORDS !! Z.to_nat (Z.abs (spec_hash (dateStr today))
                             mod Z.of_nat (length WORDS))) ∧
  (WORDS ≠ [] → is_Some (getDailyWord WORDS today)) ∧
  (∀ other,
     JsDate.getUTCFullYear other = JsDate.getUTCFullYear today →
     JsDate.getUTCMonth other = JsDate.getUTCMonth today →
     JsDate.getUTCDate other = JsDate.getUTCDate today →
     getDailyWord WORDS other = getDailyWord WORDS today) ∧
  (∀ other, JsDate.Day other = JsDate.Day today →
            getDailyWord WORDS other = getDailyWord WORDS today).
Proof.
  split_and!.
  - done.
  - apply decimal_digit.
  - apply hash_step_spec.
  - apply hash_loop_spec.
  - apply getDailyWord_index.
  - apply getDailyWord_defined.
  - intros other. apply getDailyWord_same_date.
  - intros other (Hy & Hm & Hd)%same_day_same_date.
    by apply getDailyWord_same_date.
Qed.

(** ** [POST /api/guess] *)

Abbreviation handler := (guess_handler WORDS toLowerCase trim).

Lemma guess_handler_short now guess :
  length (trim (toLowerCase guess)) ≠ 5%nat →
  handler now guess = GuessError 400 "Word must be 5 letters".
Proof.
  intros Hlen. unfold guess_handler.
  by destruct (Nat.eqb_spec (length (trim (toLowerCase guess))) 5).
Qed.

Lemma guess_handler_unknown now guess :
  length (trim (toLowerCase guess)) = 5%nat →
  trim (toLowerCase guess) ∉ WORD_SET WORDS →
  handler now guess = GuessError 400 "Not in word list".
Proof.
  intros Hlen Hin. unfold guess_handler.
  rewrite Hlen. simpl. by rewrite bool_decide_eq_false_2.
Qed.

Lemma guess_handler_known now guess :
  length (trim (toLowerCase guess)) = 5%nat →
  trim (toLowerCase guess) ∈ WORD_SET WORDS →
  ∃ answer, getDailyWord WORDS now = Some answer ∧
    handler now guess =
    GuessOk (evaluate (trim (toLowerCase guess)) answer)
            (bool_decide (trim (toLowerCase guess) = answer)).
Proof.
  intros Hlen Hin. unfold guess_handler.
  rewrite Hlen. simpl. rewrite bool_decide_eq_true_2 by done. simpl.
  destruct (getDailyWord_defined now) as [answer Hanswer].
  - unfold WORD_SET in Hin. apply elem_of_list_to_set in Hin.
    intros Hnil. rewrite Hnil in Hin. by apply not_elem_of_nil in Hin.
  - exists answer. by rewrite Hanswer.
Qed.

(** C8. On the word [guess] lowercased then trimmed, the handler answers
    the error "Word must be 5 letters" exactly when the word's length is
    not 5, the error "Not in word list" exactly when its length is 5 and it
    is not in the word set, and otherwise the five tags of [evaluate]
    against today's answer with the flag telling whether the word is that
    same answer. *)
Theorem guess_handler_cases (now : Z) (guess : jsstring) :
  let word := trim (toLowerCase guess) in
  (handler now guess = GuessError 400 "Word must be 5 letters" ↔
   length word ≠ 5%nat) ∧
  (handler now guess = GuessError 400 "Not in word list" ↔
   length word = 5%nat ∧ word ∉ WORD_SET WORDS) ∧
  (length word = 5%nat → word ∈ WORD_SET WORDS →
   ∃ answer, getDailyWord WORDS now = Some answer ∧
     handler now guess =
       GuessOk (evaluate word answer) (bool_decide (word = answer)) ∧
     length (evaluate word answer) = 5%nat).
Proof.
  intros word. subst word.
  destruct (decide (length (trim (toLowerCase guess)) = 5%nat)) as [Hlen|Hlen].
  - destruct (decide (trim (toLowerCase guess) ∈ WORD_SET WORDS)) as [Hin|Hin].
    + destruct (guess_handler_known now guess Hlen Hin) as (answer & Hw & ->).
      split_and!; [split; [done|by intros ?] | split; [done|by intros [_ ?]] |].
      intros _ _. exists answer. by rewrite evaluate_length.
    + rewrite (guess_handler_unknown now guess Hlen Hin).
      split_and!; [split; [done|by intros ?] | done | done].
  - rewrite (guess_handler_short now guess Hlen).
    split_and!; [done | split; [done|by intros [? _]] | done].
Qed.

(** C9. For every five-letter word [w], [evaluate w w] is five [correct]
    tags. And, the words of the list being five letters long: a five-letter
    word equals a word of the list exactly when [evaluate] of the two is five
    [correct] tags; the handler answers an error only for a word of another
    length or out of the word set, and otherwise answers the tags
    [evaluate word answer] and the flag [word === answer] for today's
    [answer], so that the flag is [true] exactly when the tags are five
    [correct]. *)
Theorem exact_match_all_correct (w : jsstring) (now : Z) (guess : jsstring) :
  length w = 5%nat → Forall (λ a, length a = 5%nat) WORDS →
  evaluate w w = [correct; correct; correct; correct; correct] ∧
  (∀ answer, answer ∈ WORDS → length (trim (toLowerCase guess)) = 5%nat →
     trim (toLowerCase guess) = answer ↔
     evaluate (trim (toLowerCase guess)) answer =
       [correct; correct; correct; correct; correct]) ∧
  match handler now guess with
  | GuessOk r solved =>
      ∃ answer, getDailyWord WORDS now = Some answer ∧
        r = evaluate (trim (toLowerCase guess)) answer ∧
        solved = bool_decide (trim (toLowerCase guess) = answer) ∧
        (solved = true ↔ r = [correct; correct; correct; correct; correct])
  | GuessError _ _ =>
      length (trim (toLowerCase guess)) ≠ 5%nat ∨
      trim (toLowerCase guess) ∉ WORD_SET WORDS
  | GuessThrows => False
  end.
Proof.
  intros Hw Hwords. rewrite Forall_forall in Hwords.
  split_and!; [by apply evaluate_all_correct| |].
  - intros answer Hin Hlen. symmetry. apply evaluate_all_correct; [done|].
    by apply Hwords.
  - destruct (decide (length (trim (toLowerCase guess)) = 5%nat)) as [Hlen|Hlen];
      [|rewrite guess_handler_short by done; by left].
    destruct (decide (trim (toLowerCase guess) ∈ WORD_SET WORDS)) as [Hin|Hin];
      [|rewrite guess_handler_unknown by done; by right].
    destruct (guess_handler_known now guess Hlen Hin) as (answer & Hanswer & ->).
    exists answer. split_and!; [done..|].
    rewrite bool_decide_eq_true. symmetry. apply evaluate_all_correct; [done|].
    apply Hwords. by eapply getDailyWord_in_list.
Qed.
End WorkerProperties.

Lemma getDailyWord_spec_witness :
  is_Some (getDailyWord sample_words 1709164800000) ∧
  getDailyWord sample_words 1709251199999 = getDailyWord sample_words 1709164800000.
Proof.
  destruct (getDailyWord_spec sample_words 1709164800000)
    as (_ & _ & _ & _ & _ & Hsome & _ & Hday).
  split.
  - apply Hsome. discriminate.
  - apply (Hday 1709251199999). reflexivity.
Defined.

Lemma guess_handler_cases_witness :
  ∃ answer, getDailyWord sample_words 1709164800000 = Some answer ∧
    guess_handler sample_words ascii_toLowerCase ascii_trim 1709164800000
                  (str " Speed ") =
      GuessOk (evaluate (str "speed") answer) (bool_decide (str "speed" = answer)) ∧
    length (evaluate (str "speed") answer) = 5%nat.
Proof.
  destruct (guess_handler_cases sample_words ascii_toLowerCase ascii_trim
              1709164800000 (str " Speed ")) as (_ & _ & Hok).
  apply Hok.
  - reflexivity.
  - apply elem_of_list_to_set. vm_compute. do 1 right. left.
Defined.

Lemma exact_match_all_correct_witness :
  evaluate (str "crane") (str "crane") = [correct; correct; correct; correct; correct] ∧
  (∀ answer, answer ∈ sample_words →
     length (ascii_trim (ascii_toLowerCase (str "CRANE"))) = 5%nat →
     ascii_trim (ascii_toLowerCase (str "CRANE")) = answer ↔
     evaluate (ascii_trim (ascii_toLowerCase (str "CRANE"))) answer =
       [correct; correct; correct; correct; correct]) ∧
  match guess_handler sample_words ascii_toLowerCase ascii_trim 1709164800000
                      (str "CRANE") with
  | GuessOk r solved =>
      ∃ answer, getDailyWord sample_words 1709164800000 = Some answer ∧
        r = evaluate (ascii_trim (ascii_toLowerCase (str "CRANE"))) answer ∧
        solved = bool_decide (ascii_trim (ascii_toLowerCase (str "CRANE")) = answer) ∧
        (solved = true ↔ r = [correct; correct; correct; correct; correct])
  | GuessError _ _ =>
      length (ascii_trim (ascii_toLowerCase (str "CRANE"))) ≠ 5%nat ∨
      ascii_trim (ascii_toLowerCase (str "CRANE")) ∉ WORD_SET sample_words
  | GuessThrows => False
  end.
Proof.
  apply (exact_match_all_correct sample_words ascii_toLowerCase ascii_trim
           (str "crane") 1709164800000 (str "CRANE")).
  - reflexivity.
  - repeat constructor.
Defined.

Example guess_handler_solved :
  guess_handler sample_words ascii_toLowerCase ascii_trim 1709164800000 (str "CRANE")
  = GuessOk [correct; correct; correct; correct; correct] true.
Proof. vm_compute. reflexivity. Qed.

Example guess_handler_too_short :
  guess_handler sample_words ascii_toLowerCase ascii_trim 1709164800000 (str "ab")
  = GuessError 400 "Word must be 5 letters".
Proof. vm_compute. reflexivity. Qed.

Example guess_handler_not_a_word :
  guess_handler sample_words ascii_toLowerCase ascii_trim 1709164800000 (str "zzzzz")
  = GuessError 400 "Not in word list".
Proof. vm_compute. reflexivity. Qed.

(** ** [POST /api/solve], one call at a time *)

Lemma solve_handler_table req db :
  (solve_handler req db).2 =
  match db !! gameNumber req with
  | None => <[gameNumber req := Row (timeMs req) (numGuesses req)]> db
  | Some r =>
      if timeMs req <? time_ms r
      then <[gameNumber req := Row (timeMs req) (numGuesses req)]> db
      else db
  end.
Proof.
  unfold solve_handler, solve_step, select_time, insert_or_replace. simpl.
  destruct (db !! gameNumber req) as [r|]; simpl; [|done].
  by destruct (timeMs req <? time_ms r).
Qed.

Lemma solve_handler_response req db :
  (solve_handler req db).1 =
  Some {| fastestTimeMs := time_ms <$> (solve_handler req db).2 !! gameNumber req;
          fastestGuesses := num_guesses <$> (solve_handler req db).2 !! gameNumber req |}.
Proof.
  unfold solve_handler, solve_step, select_row. simpl.
  by destruct (match select_time db (gameNumber req) with
               | Some t => timeMs req <? t
               | None => true
               end).
Qed.

Lemma solve_handler_lookup req db g :
  (solve_handler req db).2 !! g =
  if decide (g = gameNumber req)
  then keep (db !! g) (timeMs req, numGuesses req)
  else db !! g.
Proof.
  rewrite solve_handler_table. unfold keep. simpl.
  destruct (decide (g = gameNumber req)) as [->|Hne].
  - destruct (db !! gameNumber req) as [r|] eqn:Hr; [|by rewrite lookup_insert_eq].
    destruct (timeMs req <? time_ms r); [by rewrite lookup_insert_eq|done].
  - destruct (db !! gameNumber req) as [r|]; [|by rewrite lookup_insert_ne].
    destruct (timeMs req <? time_ms r); [by rewrite lookup_insert_ne|done].
Qed.

(** C3. A submission [(timeMs, numGuesses)] for a game with no record inserts
    the pair; with a record and [timeMs] strictly less than its [time_ms] it
    replaces both columns together; with [timeMs] not strictly less it leaves
    the table as it was; and the handler answers, in every case, with the
    record the table holds for the game after that. *)
Theorem solve_handler_rule (db : table) (g t n : Z) :
  let out := solve_handler (SolveRequest g t n) db in
  (db !! g = None → out.2 = <[g := Row t n]> db) ∧
  (∀ r, db !! g = Some r → t < time_ms r → out.2 = <[g := Row t n]> db) ∧
  (∀ r, db !! g = Some r → ¬ t < time_ms r → out.2 = db) ∧
  (∃ r, out.2 !! g = Some r ∧
        out.1 = Some {| fastestTimeMs := Some (time_ms r);
                        fastestGuesses := Some (num_guesses r) |}).
Proof.
  intros out. subst out. split_and!.
  - intros Hg. by rewrite solve_handler_table; simpl; rewrite Hg.
  - intros r Hg Hlt. rewrite solve_handler_table; simpl; rewrite Hg.
    by apply Z.ltb_lt in Hlt as ->.
  - intros r Hg Hge. rewrite solve_handler_table; simpl; rewrite Hg.
    by apply Z.ltb_nlt in Hge as ->.
  - rewrite solve_handler_response. cbn [gameNumber].
    rewrite !solve_handler_lookup.
    cbn [gameNumber timeMs numGuesses]. rewrite decide_True by done.
    unfold keep. destruct (db !! g) as [r|]; simpl; [|by eauto].
    destruct (t <? time_ms r); by eauto.
Qed.

Lemma solve_handler_rule_witness :
  (solve_handler (SolveRequest 7 300 3) (<[7 := Row 500 4]> ∅)).2
    = <[7 := Row 300 3]> (<[7 := Row 500 4]> ∅) ∧
  (solve_handler (SolveRequest 7 700 2) (<[7 := Row 500 4]> ∅)).2
    = <[7 := Row 500 4]> ∅ ∧
  (solve_handler (SolveRequest 7 300 3) ∅).2 = <[7 := Row 300 3]> ∅.
Proof.
  split_and!.
  - apply (solve_handler_rule (<[7 := Row 500 4]> ∅) 7 300 3) with (r := Row 500 4);
      [reflexivity | simpl; lia].
  - apply (solve_handler_rule (<[7 := Row 500 4]> ∅) 7 700 2) with (r := Row 500 4);
      [reflexivity | simpl; lia].
  - apply (solve_handler_rule ∅ 7 300 3). reflexivity.
Defined.

Example solve_handler_slower_answer :
  (solve_handler (SolveRequest 7 700 2) (<[7 := Row 500 4]> ∅)).1
  = Some {| fastestTimeMs := Some 500; fastestGuesses := Some 4 |}.
Proof. reflexivity. Qed.

(** ** Submissions one after the other *)

Lemma solve_all_submissions g subs db :
  solve_all (submissions g subs) db !! g = foldl keep (db !! g) subs.
Proof.
  unfold solve_all, submissions. revert db.
  induction subs as [|sub subs IH]; intros db; [done|].
  rewrite fmap_cons. cbn [foldl]. rewrite IH, solve_handler_lookup.
  cbn [gameNumber timeMs numGuesses]. rewrite decide_True by done.
  by destruct sub.
Qed.

(** The record kept is the earliest submission with the least time. *)
Lemma keep_fold_first subs :
  subs ≠ [] →
  ∃ before t n after,
    subs = before ++ (t, n) :: after ∧
    foldl keep None subs = Some (Row t n) ∧
    (∀ p, p ∈ before → t < p.1) ∧ (∀ p, p ∈ after → t <= p.1).
Proof.
  induction subs as [|[t' n'] subs IH] using rev_ind; [done|]. intros _.
  rewrite foldl_snoc. destruct (decide (subs = [])) as [->|Hne].
  - exists [], t', n', []. simpl. split_and!; [done..| |]; by intros p ?%elem_of_nil.
  - destruct (IH Hne) as (before & t & n & after & -> & -> & Hb & Ha).
    unfold keep. simpl. destruct (Z.ltb_spec t' t) as [Hlt|Hge].
    + exists (before ++ (t, n) :: after), t', n', [].
      split_and!; [done..| |by intros p ?%elem_of_nil].
      intros p [Hp|[->|Hp]%elem_of_cons]%elem_of_app; simpl.
      * specialize (Hb _ Hp). lia.
      * done.
      * specialize (Ha _ Hp). lia.
    + exists before, t, n, (after ++ [(t', n')]).
      split_and!; [by rewrite <- app_assoc|done|done|].
      intros p [Hp|Hp%list_elem_of_singleton]%elem_of_app; [by apply Ha|by subst].
Qed.

Lemma solve_all_order_matters :
  [(300, 3); (300, 5)] ≡ₚ [(300, 5); (300, 3)] ∧
  solve_all (submissions 1 [(300, 3); (300, 5)]) ∅ !! 1 = Some (Row 300 3) ∧
  solve_all (submissions 1 [(300, 5); (300, 3)]) ∅ !! 1 = Some (Row 300 5) ∧
  solve_all (submissions 1 [(300, 3); (300, 5)]) ∅
  ≠ solve_all (submissions 1 [(300, 5); (300, 3)]) ∅.
Proof.
  split_and!; [apply perm_swap | reflexivity | reflexivity |].
  intros H. apply (f_equal (λ db : table, db !! 1)) in H. discriminate H.
Qed.

(** C4, as the code has it. Submitting the pairs of a non-empty list for one
    game, with no record to begin with, leaves in every order the least
    [timeMs]; the [numGuesses] stored with it is that of the earliest
    submission with the least time, so the record is the same in every order
    when equal times always come with equal guess counts. *)
Theorem solve_all_keeps_minimum (g : Z) (db : table) (subs1 subs2 : list (Z * Z)) :
  db !! g = None → subs1 ≠ [] → subs1 ≡ₚ subs2 →
  ∃ t n1 n2,
    solve_all (submissions g subs1) db !! g = Some (Row t n1) ∧
    solve_all (submissions g subs2) db !! g = Some (Row t n2) ∧
    (∀ p, p ∈ subs1 → t <= p.1) ∧
    (∃ before after, subs1 = before ++ (t, n1) :: after ∧
                     ∀ p, p ∈ before → t < p.1) ∧
    (∃ before after, subs2 = before ++ (t, n2) :: after ∧
                     ∀ p, p ∈ before → t < p.1) ∧
    ((∀ p q, p ∈ subs1 → q ∈ subs1 → p.1 = q.1 → p.2 = q.2) → n1 = n2).
Proof.
  intros Hg Hne Hperm.
  assert (subs2 ≠ []) as Hne2.
  { intros ->. by apply Permutation_nil_r in Hperm. }
  destruct (keep_fold_first subs1 Hne) as (b1 & t1 & n1 & a1 & E1 & F1 & Hb1 & Ha1).
  destruct (keep_fold_first subs2 Hne2) as (b2 & t2 & n2 & a2 & E2 & F2 & Hb2 & Ha2).
  assert (∀ p, p ∈ subs1 → t1 <= p.1) as Hmin1.
  { intros p. rewrite E1. intros [Hp|[->|Hp]%elem_of_cons]%elem_of_app; simpl;
      [specialize (Hb1 _ Hp)|..|specialize (Ha1 _ Hp)]; lia. }
  assert (∀ p, p ∈ subs2 → t2 <= p.1) as Hmin2.
  { intros p. rewrite E2. intros [Hp|[->|Hp]%elem_of_cons]%elem_of_app; simpl;
      [specialize (Hb2 _ Hp)|..|specialize (Ha2 _ Hp)]; lia. }
  assert ((t1, n1) ∈ subs1) as Hin1
    by (rewrite E1; apply elem_of_app; right; by left).
  assert ((t2, n2) ∈ subs1) as Hin2
    by (rewrite Hperm, E2; apply elem_of_app; right; by left).
  assert (t2 = t1) as ->.
  { specialize (Hmin1 _ Hin2). rewrite Hperm in Hin1. specialize (Hmin2 _ Hin1).
    simpl in *. lia. }
  exists t1, n1, n2. rewrite !solve_all_submissions, Hg, F1, F2.
  split_and!; [done..|by eauto|by eauto|].
  intros Hagree. by apply (Hagree _ _ Hin1 Hin2).
Qed.

Lemma solve_all_keeps_minimum_witness :
  ∃ t n1 n2,
    solve_all (submissions 7 [(500, 4); (300, 3); (700, 2)]) ∅ !! 7 = Some (Row t n1) ∧
    solve_all (submissions 7 [(300, 3); (500, 4); (700, 2)]) ∅ !! 7 = Some (Row t n2) ∧
    (∀ p, p ∈ [(500, 4); (300, 3); (700, 2)] → t <= p.1) ∧
    (∃ before after, [(500, 4); (300, 3); (700, 2)] = before ++ (t, n1) :: after ∧
                     ∀ p, p ∈ before → t < p.1) ∧
    (∃ before after, [(300, 3); (500, 4); (700, 2)] = before ++ (t, n2) :: after ∧
                     ∀ p, p ∈ before → t < p.1) ∧
    ((∀ p q, p ∈ [(500, 4); (300, 3); (700, 2)] →
             q ∈ [(500, 4); (300, 3); (700, 2)] → p.1 = q.1 → p.2 = q.2) → n1 = n2).
Proof.
  apply (solve_all_keeps_minimum 7 ∅ [(500, 4); (300, 3); (700, 2)]
           [(300, 3); (500, 4); (700, 2)]).
  - reflexivity.
  - discriminate.
  - apply perm_swap.
Defined.

Example solve_all_three_orders :
  solve_all (submissions 7 [(500, 4); (300, 3); (700, 2)]) ∅ !! 7 = Some (Row 300 3) ∧
  solve_all (submissions 7 [(700, 2); (500, 4); (300, 3)]) ∅ !! 7 = Some (Row 300 3) ∧
  solve_all (submissions 7 [(300, 3); (700, 2); (500, 4)]) ∅ !! 7 = Some (Row 300 3).
Proof. repeat split; reflexivity. Qed.

(** ** No validation in [POST /api/solve] *)


Lemma solve_all_never_slower g r later db :
  db !! g = Some r →
  ∃ r', solve_all later db !! g = Some r' ∧ time_ms r' <= time_ms r.
Proof.
  unfold solve_all. revert db r.
  induction later as [|q later IH]; intros db r Hg; cbn [foldl];
    [exists r; split; [done|lia]|].
  destruct (decide (g = gameNumber q)) as [Hq|Hq].
  - destruct (Z.ltb_spec (timeMs q) (time_ms r)) as [Hlt|Hge].
    + destruct (IH (solve_handler q db).2 (Row (timeMs q) (numGuesses q)))
        as (r' & Hr' & Hle).
      { rewrite solve_handler_lookup, decide_True, Hg by done. unfold keep. simpl.
        by apply Z.ltb_lt in Hlt as ->. }
      exists r'. split; [done|]. simpl in Hle. lia.
    + apply IH. rewrite solve_handler_lookup, decide_True, Hg by done.
      unfold keep. simpl. by apply Z.ltb_ge in Hge as ->.
  - apply IH. by rewrite solve_handler_lookup, decide_False.
Qed.






Example solve_handler_negative_time :
  solve_handler (SolveRequest (-3) (-5) (-1)) ∅
  = (Some {| fastestTimeMs := Some (-5); fastestGuesses := Some (-1) |},
     <[-3 := Row (-5) (-1)]> ∅).
Proof. reflexivity. Qed.

(** ** Two calls of [POST /api/solve] in flight *)

Lemma race_loses_update :
  complete [false; true; true; false; false; true] ∧
  store (race_run (SolveRequest 7 420 4) (SolveRequest 7 419 5) ∅
           [false; true; true; false; false; true]) !! 7
  = Some (Row 420 4).
Proof. split; [split|]; reflexivity. Qed.

Lemma complete_length schedule : complete schedule → length schedule = 6%nat.
Proof.
  intros [Hf Ht].
  assert (length (filter (λ w, w = false) schedule) +
          length (filter (λ w, w = true) schedule) = length schedule)%nat as H.
  { clear. induction schedule as [|[] s IH]; [done|..];
      rewrite !filter_cons; simpl; lia. }
  lia.
Qed.

Ltac race_steps :=
  repeat first
    [ progress cbn [foldl race_step solve_step store first_call second_call
                    gameNumber timeMs numGuesses fmap option_fmap option_map
                    time_ms]
    | progress unfold select_time, insert_or_replace, select_row
    | rewrite lookup_insert_eq
    | match goal with H : _ !! _ = None |- _ => rewrite H end ].

Ltac race_orders :=
  repeat match goal with
    | |- context [?x <? ?y] => destruct (Z.ltb_spec x y)
    end.

(** C5, as the code has it. The handler reads, writes and reads again in
    three separate statements, so two calls for one game may interleave. With
    no record to begin with, every interleaving ends with one of the two
    submitted pairs in the table; when the calls run one after the other the
    time kept is the lesser of the two. Nothing more holds: the schedule of
    [race_loses_update] keeps 420 against 419. *)
Theorem race_outcomes (g t1 n1 t2 n2 : Z) (db : table) (schedule : list bool) :
  db !! g = None → complete schedule →
  let final := store (race_run (SolveRequest g t1 n1) (SolveRequest g t2 n2)
                               db schedule) !! g in
  (final = Some (Row t1 n1) ∨ final = Some (Row t2 n2)) ∧
  (serial schedule → ∃ r, final = Some r ∧ time_ms r = Z.min t1 t2).
Proof.
  intros Hdb Hc final. subst final.
  pose proof (complete_length _ Hc) as Hlen.
  destruct schedule as [|b1 [|b2 [|b3 [|b4 [|b5 [|b6 [|]]]]]]];
    try discriminate Hlen.
  unfold serial.
  destruct b1, b2, b3, b4, b5, b6;
    try (exfalso; destruct Hc as [Hf Ht]; vm_compute in Hf, Ht; congruence);
    unfold race_run; race_steps; race_orders; race_steps;
    (split; [auto|]).
  all: intros [[=]|[=]]; eexists; (split; [reflexivity|]); simpl; lia.
Qed.

Lemma race_outcomes_witness :
  ∃ r, store (race_run (SolveRequest 7 420 4) (SolveRequest 7 419 5) ∅
                [false; false; false; true; true; true]) !! 7 = Some r ∧
       time_ms r = Z.min 420 419.
Proof.
  apply (race_outcomes 7 420 4 419 5 ∅ [false; false; false; true; true; true]).
  - reflexivity.
  - split; reflexivity.
  - left. reflexivity.
Defined.

(** * Further properties of [evaluate] *)

Lemma JsArray_indexOf_none_holds c (a : JsArray.t) :
  JsArray.indexOf a (Some c) = None → holds c a = 0%nat.
Proof.
  induction a as [|v a IH]; simpl; [done|].
  destruct v as [d|].
  - destruct (decide (c = d)) as [->|Hne]; [done|].
    rewrite decide_False by congruence.
    destruct (JsArray.indexOf a (Some c)); [done|]. intros _. by rewrite IH.
  - rewrite decide_False by done.
    destruct (JsArray.indexOf a (Some c)); [done|]. intros _. by rewrite IH.
Qed.

Lemma marked_le c (guess : jsstring) (r : list tag) :
  (marked c guess r ≤ occurrences c guess)%nat.
Proof.
  unfold occurrences. revert r.
  induction guess as [|g guess IH]; intros [|u r]; simpl; try lia.
  rewrite filter_cons. specialize (IH r).
  destruct (decide (g = c)) as [->|Hne]; simpl.
  - case_decide; lia.
  - rewrite decide_False by (by intros [? _]). lia.
Qed.

Lemma marked_all c (guess : jsstring) (r : list tag) :
  length r = length guess →
  (∀ j, guess !! j = Some c → r !! j ≠ Some absent) →
  marked c guess r = occurrences c guess.
Proof.
  unfold occurrences. revert r.
  induction guess as [|g guess IH]; intros [|u r] Hlen Hall; simplify_eq/=;
    [done|].
  rewrite filter_cons.
  rewrite (IH r) by (done || intros j; apply (Hall (S j))).
  destruct (decide (g = c)) as [->|Hne]; simpl.
  - rewrite decide_True; [done|]. split; [done|].
    intros ->. by apply (Hall 0%nat).
  - by rewrite decide_False by (by intros [? _]).
Qed.

(** What the first loop leaves, read slot by slot. *)
Lemma after_first_pass_result_correct (guess answer : jsstring) j :
  length guess = length answer →
  result (after_first_pass guess answer) !! j = Some correct ↔
  (j < length guess)%nat ∧ guess !! j = answer !! j.
Proof.
  simpl. revert answer j.
  induction guess as [|g guess IH]; intros [|a answer] j Hlen; simplify_eq/=.
  - split; [done|]. intros [? _]. lia.
  - destruct j as [|j]; simpl.
    + destruct (decide (g = a)) as [->|Hne]; split; try done.
      * intros _. split; [lia|done].
      * intros [_ [= ?]]. done.
    + rewrite IH by done. split; intros [? ?]; (split; [lia|done]).
Qed.

Lemma after_first_pass_guess_letter (guess answer : jsstring) j g :
  guessLetters (after_first_pass guess answer) !! j = Some (Some g) →
  g ≠ underscore →
  guess !! j = Some g ∧ answer !! j ≠ Some g.
Proof.
  simpl. revert answer j.
  induction guess as [|h guess IH]; intros [|a answer] [|j] Hj Hg;
    simplify_eq/=; try by apply IH.
  case_decide; simplify_eq. split; [done|congruence].
Qed.

Lemma after_first_pass_answer_letter (guess answer : jsstring) j a :
  answerLetters (after_first_pass guess answer) !! j = Some (Some a) →
  a ≠ underscore →
  answer !! j = Some a ∧ guess !! j ≠ Some a.
Proof.
  simpl. revert answer j.
  induction guess as [|h guess IH]; intros [|b answer] [|j] Hj Ha;
    simplify_eq/=; try by apply IH.
  case_decide; simplify_eq. split; [done|congruence].
Qed.

Lemma after_first_pass_matched (guess answer : jsstring) j :
  guessLetters (after_first_pass guess answer) !! j = Some (Some underscore) →
  guess !! j ≠ Some underscore →
  result (after_first_pass guess answer) !! j = Some correct.
Proof.
  simpl. revert answer j.
  induction guess as [|h guess IH]; intros [|a answer] [|j] Hj Hg;
    simplify_eq/=; try by apply IH.
  case_decide; simplify_eq; done.
Qed.

Lemma after_first_pass_guess_slot (guess answer : jsstring) j :
  length guess = length answer → (j < length guess)%nat →
  ∃ g, guessLetters (after_first_pass guess answer) !! j = Some (Some g).
Proof.
  intros Hlen Hj. simpl.
  destruct (lookup_lt_is_Some_2 guess j Hj) as [g Hg].
  destruct (lookup_lt_is_Some_2 answer j ltac:(lia)) as [a Ha].
  rewrite lookup_zip_with, Hg, Ha. simpl. case_decide; eauto.
Qed.

Lemma after_first_pass_result_slot (guess answer : jsstring) j :
  length guess = length answer → (j < length guess)%nat →
  result (after_first_pass guess answer) !! j = Some correct ∨
  result (after_first_pass guess answer) !! j = Some absent.
Proof.
  intros Hlen Hj. simpl.
  destruct (lookup_lt_is_Some_2 guess j Hj) as [g Hg].
  destruct (lookup_lt_is_Some_2 answer j ltac:(lia)) as [a Ha].
  rewrite lookup_zip_with, Hg, Ha. simpl. case_decide; eauto.
Qed.

(** What the second loop keeps about single positions. [r1], [a1] and [g1]
    are the arrays the first loop left. *)
Section SecondPassTags.
Variables guess answer : jsstring.
Variable c : code_unit.
Hypothesis c_letter : c ≠ underscore.
Hypothesis same_length : length guess = length answer.

Let r1 := result (after_first_pass guess answer).
Let a1 := answerLetters (after_first_pass guess answer).
Let g1 := guessLetters (after_first_pass guess answer).

Record second_pass_tags (pending : list nat) (st : locals) : Prop := {
  tags_len : length (result st) = length guess;
  tags_guess : guessLetters st = g1;
  tags_pending : ∀ j, j ∈ pending → result st !! j = r1 !! j;
  tags_correct : ∀ j, result st !! j = Some correct ↔ r1 !! j = Some correct;
  tags_answer : ∀ j a, answerLetters st !! j = Some (Some a) →
    a = underscore ∨ a1 !! j = Some (Some a);
  tags_present : ∀ j, result st !! j = Some present →
    ∃ g idx, g1 !! j = Some (Some g) ∧ g ≠ underscore ∧ a1 !! idx = Some (Some g);
  tags_spent : ∀ j, j ∉ pending → g1 !! j = Some (Some c) →
    result st !! j = Some absent → holds c (answerLetters st) = 0%nat
}.

Lemma second_pass_tags_start :
  second_pass_tags (seq 0 (length guess)) (after_first_pass guess answer).
Proof.
  split; try done.
  - simpl. rewrite length_zip_with. lia.
  - intros j a Hj. by right.
  - intros j Hj. exfalso. apply lookup_lt_Some in Hj as Hlt.
    simpl in Hlt. rewrite length_zip_with in Hlt.
    destruct (after_first_pass_result_slot guess answer j) as [H|H];
      [done|lia|..]; subst r1; congruence.
  - intros j Hj Hg Hr. exfalso. apply Hj, elem_of_seq.
    apply lookup_lt_Some in Hr. simpl in Hr. rewrite length_zip_with in Hr. lia.
Qed.

Lemma second_pass_tags_keeps i pending st :
  (i < length guess)%nat → i ∉ pending →
  second_pass_tags (i :: pending) st →
  second_pass_tags pending (second_pass st i).
Proof.
  intros Hi Hfresh [Hlen Hg Hpend Hcorr Hans Hpres Hspent].
  destruct (after_first_pass_guess_slot guess answer i same_length Hi) as [g Hgi].
  fold g1 in Hgi.
  assert (JsArray.get (guessLetters st) i = Some g) as Hget
    by (rewrite Hg; by apply JsArray_get_lookup).
  unfold second_pass. rewrite Hget.
  assert (∀ j, j ∉ pending → j ≠ i → j ∉ i :: pending) as Hout.
  { intros j Hj Hne [->|?]%elem_of_cons; done. }
  destruct (decide (Some g = Some underscore)) as [[= ->]|Hus].
  { split; try done.
    - intros j Hj. apply Hpend. by right.
    - intros j Hj Hgj Hr. destruct (decide (j = i)) as [->|Hne].
      + rewrite Hgi in Hgj. congruence.
      + by apply (Hspent j); [apply Hout|..]. }
  destruct (JsArray.indexOf (answerLetters st) (Some g)) as [idx|] eqn:Hidx.
  - apply JsArray_indexOf_found in Hidx as (g' & [= <-] & Hal).
    assert (result st !! i = r1 !! i) as Hri by (apply Hpend; by left).
    assert (r1 !! i = Some absent) as Hr1.
    { destruct (after_first_pass_result_slot guess answer i same_length Hi)
        as [H|H]; [|done]. exfalso.
      apply after_first_pass_result_correct in H as [_ H]; [|done].
      apply after_first_pass_guess_letter in Hgi as [Hgg Hag]; [|congruence].
      congruence. }
    rewrite JsArray_set_in_range by (by eapply lookup_lt_Some).
    split; simpl.
    + by rewrite length_insert.
    + done.
    + intros j Hj. rewrite list_lookup_insert_ne by (by intros ->).
      apply Hpend. by right.
    + intros j. destruct (decide (j = i)) as [->|Hne].
      * rewrite list_lookup_insert_eq by (rewrite Hlen; lia).
        rewrite Hr1. split; intros [=].
      * rewrite list_lookup_insert_ne by done. apply Hcorr.
    + intros j a. destruct (decide (j = idx)) as [->|Hne].
      * rewrite list_lookup_insert_eq by (by eapply lookup_lt_Some).
        intros [= <-]. by left.
      * rewrite list_lookup_insert_ne by done. apply Hans.
    + intros j. destruct (decide (j = i)) as [->|Hne].
      * intros _. exists g, idx. split_and!; [done|congruence|].
        destruct (Hans _ _ Hal) as [->|H]; [done|done].
      * rewrite list_lookup_insert_ne by done. apply Hpres.
    + intros j Hj Hgj. destruct (decide (j = i)) as [->|Hne].
      * rewrite list_lookup_insert_eq by (rewrite Hlen; lia). intros [=].
      * rewrite list_lookup_insert_ne by done. intros Hr.
        pose proof (Hspent j (Hout j Hj Hne) Hgj Hr) as H0.
        pose proof (holds_insert c _ _ _ (Some underscore) Hal) as Hh.
        rewrite (decide_False (P := Some underscore = Some c)) in Hh by congruence.
        lia.
  - split; try done.
    + intros j Hj. apply Hpend. by right.
    + intros j Hj Hgj Hr. destruct (decide (j = i)) as [->|Hne].
      * rewrite Hgi in Hgj. injection Hgj as ->.
        by apply JsArray_indexOf_none_holds.
      * by apply (Hspent j); [apply Hout|..].
Qed.

Lemma second_pass_tags_run pending st :
  NoDup pending → (∀ i, i ∈ pending → (i < length guess)%nat) →
  second_pass_tags pending st →
  second_pass_tags [] (foldl second_pass st pending).
Proof.
  revert st. induction pending as [|i pending IH]; intros st Hnd Hlt Hinv;
    simpl; [done|].
  apply NoDup_cons in Hnd as [Hfresh Hnd].
  apply IH; [done| |].
  - intros j Hj. apply Hlt. by right.
  - apply second_pass_tags_keeps; [|done|done]. apply Hlt. by left.
Qed.
End SecondPassTags.

Lemma evaluate_final_state (guess answer : jsstring) c :
  c ≠ underscore → length guess = 5%nat → length answer = 5%nat →
  let final := foldl second_pass (after_first_pass guess answer) (seq 0 5) in
  evaluate guess answer = result final ∧
  second_pass_inv guess answer c [] final ∧
  second_pass_tags guess answer c [] final.
Proof.
  intros Hc Hg Ha final. subst final.
  assert (length guess = length answer) as Hlen by congruence.
  split_and!.
  - unfold evaluate. by rewrite first_pass_five.
  - apply second_pass_run; [done|apply NoDup_seq| |].
    + intros i Hi. apply elem_of_seq in Hi. lia.
    + split.
      * simpl. rewrite length_zip_with. lia.
      * intros j g. by apply after_first_pass_guess.
      * intros j Hj. apply elem_of_seq in Hj.
        apply after_first_pass_pending; [done|lia].
      * by apply after_first_pass_count.
      * apply after_first_pass_correct.
  - apply second_pass_tags_run; [done|done|apply NoDup_seq| |].
    + intros i Hi. apply elem_of_seq in Hi. lia.
    + pose proof (second_pass_tags_start guess answer c Hc Hlen) as H.
      by rewrite Hg in H.
Qed.

(** A position is tagged [correct] exactly when the two five-letter words
    carry the same letter there. *)
Theorem evaluate_correct_iff (guess answer : jsstring) (i : nat) :
  length guess = 5%nat → length answer = 5%nat →
  evaluate guess answer !! i = Some correct ↔
  (i < 5)%nat ∧ guess !! i = answer !! i.
Proof.
  intros Hg Ha.
  destruct (evaluate_final_state guess answer 0%N) as (-> & _ & Htags);
    [done..|].
  rewrite (tags_correct _ _ _ _ _ Htags).
  rewrite after_first_pass_result_correct by congruence. by rewrite Hg.
Qed.

Lemma evaluate_correct_iff_witness :
  evaluate (str "crane") (str "caper") !! 0%nat = Some correct ↔
  (0 < 5)%nat ∧ str "crane" !! 0%nat = str "caper" !! 0%nat.
Proof.
  apply (evaluate_correct_iff (str "crane") (str "caper") 0); reflexivity.
Defined.

(** A position of a five-letter guess is tagged [present] only when its
    letter differs from the answer's letter there and stands in the answer at
    a position where the guess does not have it. *)
Theorem evaluate_present_elsewhere (guess answer : jsstring) (i : nat) :
  length guess = 5%nat → length answer = 5%nat →
  evaluate guess answer !! i = Some present →
  ∃ g j, guess !! i = Some g ∧ answer !! i ≠ Some g ∧
         answer !! j = Some g ∧ guess !! j ≠ Some g.
Proof.
  intros Hg Ha.
  destruct (evaluate_final_state guess answer 0%N) as (-> & _ & Htags);
    [done..|].
  intros (g & idx & Hgi & Hne & Hidx)%(tags_present _ _ _ _ _ Htags).
  apply after_first_pass_guess_letter in Hgi as [? ?]; [|done].
  apply after_first_pass_answer_letter in Hidx as [? ?]; [|done].
  by exists g, idx.
Qed.

Lemma evaluate_present_elsewhere_witness :
  ∃ g j, str "crane" !! 1%nat = Some g ∧ str "caper" !! 1%nat ≠ Some g ∧
         str "caper" !! j = Some g ∧ str "crane" !! j ≠ Some g.
Proof.
  apply (evaluate_present_elsewhere (str "crane") (str "caper") 1); reflexivity.
Defined.

(** For five-letter words and a letter [c] other than the mark ["_"], the
    positions of the guess tagged [correct] or [present] for [c] are exactly
    as many as the lesser of the occurrences of [c] in the guess and in the
    answer. *)
Theorem evaluate_marked_exact (guess answer : jsstring) (c : code_unit) :
  length guess = 5%nat → length answer = 5%nat → c ≠ underscore →
  marked c guess (evaluate guess answer) =
  (occurrences c guess `min` occurrences c answer)%nat.
Proof.
  intros Hg Ha Hc.
  destruct (evaluate_final_state guess answer c) as (-> & Hinv & Htags);
    [done..|].
  set (final := foldl second_pass (after_first_pass guess answer) (seq 0 5)) in *.
  pose proof (inv_count _ _ _ _ _ Hinv) as Hcount.
  pose proof (marked_le c guess (result final)) as Hle.
  destruct (decide (holds c (answerLetters final) = 0%nat)) as [H0|Hpos]; [lia|].
  assert (marked c guess (result final) = occurrences c guess) as Hall; [|lia].
  apply marked_all.
  - apply (tags_len _ _ _ _ _ Htags).
  - intros j Hj Habs.
    destruct (after_first_pass_guess guess answer j c ltac:(congruence) Hj)
      as [Hus|Hgc].
    + apply after_first_pass_matched in Hus; [|congruence].
      apply (tags_correct _ _ _ _ _ Htags) in Hus. congruence.
    + apply Hpos. apply (tags_spent _ _ _ _ _ Htags j); [|done|done].
      apply not_elem_of_nil.
Qed.

Lemma evaluate_marked_exact_witness :
  marked letter_e (str "speed") (evaluate (str "speed") (str "abide")) =
  (occurrences letter_e (str "speed") `min` occurrences letter_e (str "abide"))%nat.
Proof.
  apply (evaluate_marked_exact (str "speed") (str "abide") letter_e);
    [reflexivity | reflexivity | discriminate].
Defined.

(** * Further properties of the worker *)

(** ** The game number and the daily word *)

(** Two clock readings with the same game number have the same date text
    and the same daily word, and [POST /api/guess] answers every guess the
    same at both. *)
Theorem same_game_same_word (WORDS : list jsstring)
    (toLowerCase trim : jsstring → jsstring) (now1 now2 : Z) :
  getGameNumber now1 = getGameNumber now2 →
  dateStr now1 = dateStr now2 ∧
  getDailyWord WORDS now1 = getDailyWord WORDS now2 ∧
  ∀ guess, guess_handler WORDS toLowerCase trim now1 guess =
           guess_handler WORDS toLowerCase trim now2 guess.
Proof.
  intros Hgame.
  assert (JsDate.Day now1 = JsDate.Day now2) as Hday.
  { revert Hgame. unfold getGameNumber, JsDate.Day, JsDate.msPerDay.
    rewrite start_value. intros Hgame. Z.div_mod_to_equations. lia. }
  destruct (same_day_same_date _ _ Hday) as (Hy & Hm & Hd).
  assert (getDailyWord WORDS now1 = getDailyWord WORDS now2) as Hword
    by (by apply getDailyWord_same_date).
  split_and!; [|done|].
  - unfold dateStr. by rewrite Hy, Hm, Hd.
  - intros guess. unfold guess_handler. by rewrite Hword.
Qed.

Lemma same_game_same_word_witness :
  dateStr 1709164800000 = dateStr 1709251199999 ∧
  getDailyWord sample_words 1709164800000 = getDailyWord sample_words 1709251199999 ∧
  ∀ guess,
    guess_handler sample_words ascii_toLowerCase ascii_trim 1709164800000 guess =
    guess_handler sample_words ascii_toLowerCase ascii_trim 1709251199999 guess.
Proof.
  apply (same_game_same_word sample_words ascii_toLowerCase ascii_trim
           1709164800000 1709251199999).
  reflexivity.
Defined.

(** ** The table under any sequence of submissions *)

Lemma solve_all_snoc reqs req db :
  solve_all (reqs ++ [req]) db = (solve_handler req (solve_all reqs db)).2.
Proof. unfold solve_all. by rewrite foldl_snoc. Qed.

(** After any submissions, for any games, on any table: a game has a record
    exactly when it had one or a submission named it; the time of that record
    is no more than the time it had and than every time submitted for the
    game; and the record is the one it had or one that was submitted. *)
Theorem solve_all_minimum (db : table) (reqs : list solve_request) (g : Z) :
  match solve_all reqs db !! g with
  | None => db !! g = None ∧ ∀ q, q ∈ reqs → gameNumber q ≠ g
  | Some r =>
      (∀ q, q ∈ reqs → gameNumber q = g → time_ms r <= timeMs q) ∧
      (∀ r0, db !! g = Some r0 → time_ms r <= time_ms r0) ∧
      (db !! g = Some r ∨
       ∃ q, q ∈ reqs ∧ gameNumber q = g ∧ r = Row (timeMs q) (numGuesses q))
  end.
Proof.
  induction reqs as [|req reqs IH] using rev_ind.
  - simpl. destruct (db !! g) as [r|] eqn:Hr.
    + split_and!; [by intros q ?%elem_of_nil| |by left].
      intros r0 [= <-]. lia.
    + split; [done|]. by intros q ?%elem_of_nil.
  - rewrite solve_all_snoc, solve_handler_lookup.
    destruct (decide (g = gameNumber req)) as [->|Hne].
    + unfold keep. simpl.
      destruct (solve_all reqs db !! gameNumber req) as [r|] eqn:Hr.
      * destruct IH as (Hmin & Hold & Hfrom).
        destruct (Z.ltb_spec (timeMs req) (time_ms r)) as [Hlt|Hge].
        -- split_and!; simpl.
           ++ intros q [Hq| ->%list_elem_of_singleton]%elem_of_app Hg; [|lia].
              specialize (Hmin q Hq Hg). lia.
           ++ intros r0 Hr0. specialize (Hold r0 Hr0). lia.
           ++ right. exists req. split_and!; [|done..].
              apply elem_of_app. right. by left.
        -- split_and!.
           ++ intros q [Hq| ->%list_elem_of_singleton]%elem_of_app Hg; [|lia].
              by apply Hmin.
           ++ done.
           ++ destruct Hfrom as [?|(q & Hq & ? & ?)]; [by left|right].
              exists q. split_and!; [|done..]. apply elem_of_app. by left.
      * destruct IH as (Hnone & Hother). split_and!; simpl.
        -- intros q [Hq| ->%list_elem_of_singleton]%elem_of_app Hg; [|lia].
           by destruct (Hother q Hq).
        -- intros r0 Hr0. congruence.
        -- right. exists req. split_and!; [|done..].
           apply elem_of_app. right. by left.
    + destruct (solve_all reqs db !! g) as [r|] eqn:Hr.
      * destruct IH as (Hmin & Hold & Hfrom). split_and!.
        -- intros q [Hq| ->%list_elem_of_singleton]%elem_of_app Hg; [|done].
           by apply Hmin.
        -- done.
        -- destruct Hfrom as [?|(q & Hq & ? & ?)]; [by left|right].
           exists q. split_and!; [|done..]. apply elem_of_app. by left.
      * destruct IH as (Hnone & Hother). split; [done|].
        intros q [Hq| ->%list_elem_of_singleton]%elem_of_app; [|done].
        by apply Hother.
Qed.

(** Submitting the same body twice in a row changes nothing the second time:
    the same table and the same answer as after the first. *)
Theorem solve_handler_idempotent (req : solve_request) (db : table) :
  solve_handler req (solve_handler req db).2 =
  ((solve_handler req db).1, (solve_handler req db).2).
Proof.
  assert ((solve_handler req (solve_handler req db).2).2 = (solve_handler req db).2)
    as Htable.
  { rewrite (solve_handler_table req (solve_handler req db).2).
    rewrite solve_handler_lookup, decide_True by done. unfold keep. simpl.
    destruct (db !! gameNumber req) as [r|]; simpl.
    - destruct (Z.ltb_spec (timeMs req) (time_ms r)); simpl.
      + by rewrite Z.ltb_irrefl.
      + by apply Z.ltb_ge in H as ->.
    - by rewrite Z.ltb_irrefl. }
  rewrite (surjective_pairing (solve_handler req _)). f_equal; [|done].
  by rewrite !solve_handler_response, Htable.
Qed.

(** ** [GET /api/fastest/:gameNumber] *)

Lemma solve_all_other_games g later db :
  (∀ q, q ∈ later → gameNumber q ≠ g) → solve_all later db !! g = db !! g.
Proof.
  induction later as [|q later IH] using rev_ind; intros Hother; [done|].
  rewrite solve_all_snoc, solve_handler_lookup, decide_False.
  - apply IH. intros q' Hq'. apply Hother, elem_of_app. by left.
  - intros ->. apply (Hother q); [|done]. apply elem_of_app. right. by left.
Qed.

(** What a submission was answered is what the fastest record of its game
    reads afterwards, also after any submissions for other games. *)
Theorem fastest_after_solve (db : table) (req : solve_request)
    (later : list solve_request) :
  (∀ q, q ∈ later → gameNumber q ≠ gameNumber req) →
  (solve_handler req db).1 =
    Some (fastest_handler (solve_all later (solve_handler req db).2)
                          (gameNumber req)).
Proof.
  intros Hother.
  rewrite solve_handler_response. unfold fastest_handler, select_row.
  by rewrite solve_all_other_games.
Qed.

Lemma fastest_after_solve_witness :
  (solve_handler (SolveRequest 7 300 3) (<[7 := Row 500 4]> ∅)).1 =
  Some (fastest_handler
          (solve_all [SolveRequest 8 100 1]
             (solve_handler (SolveRequest 7 300 3) (<[7 := Row 500 4]> ∅)).2) 7).
Proof.
  apply (fastest_after_solve (<[7 := Row 500 4]> ∅) (SolveRequest 7 300 3)
           [SolveRequest 8 100 1]).
  intros q ->%list_elem_of_singleton. discriminate.
Defined.

Lemma solve_all_named g q reqs db :
  q ∈ reqs → gameNumber q = g → is_Some (solve_all reqs db !! g).
Proof.
  unfold solve_all. revert db.
  induction reqs as [|q' reqs IH]; intros db Hq Hg; cbn [foldl];
    [by apply elem_of_nil in Hq|].
  apply elem_of_cons in Hq as [<-|Hq]; [|by apply IH].
  assert (∃ r, (solve_handler q db).2 !! g = Some r) as [r Hr].
  { rewrite solve_handler_lookup, decide_True by done. unfold keep.
    destruct (db !! g) as [r|]; simpl; [destruct (_ <? _)|]; by eexists. }
  destruct (solve_all_never_slower g r reqs _ Hr) as (r' & Hr' & _).
  by exists r'.
Qed.

(** After any submissions on any table, the fastest record of a game reads
    two nulls exactly when the table had no record of the game and no
    submission named it; otherwise it reads two numbers. *)
Theorem fastest_null_iff (db : table) (reqs : list solve_request) (g : Z) :
  (fastest_handler (solve_all reqs db) g =
     {| fastestTimeMs := None; fastestGuesses := None |} ↔
   db !! g = None ∧ ∀ q, q ∈ reqs → gameNumber q ≠ g) ∧
  (fastestTimeMs (fastest_handler (solve_all reqs db) g) = None ↔
   fastestGuesses (fastest_handler (solve_all reqs db) g) = None).
Proof.
  unfold fastest_handler, select_row.
  destruct (solve_all reqs db !! g) as [r|] eqn:Hr; simpl.
  - split; [|done]. split; [done|]. intros [Hnone Hother].
    rewrite solve_all_other_games in Hr by done. congruence.
  - split; [|done]. split; [|done]. intros _. split.
    + destruct (db !! g) as [r0|] eqn:Hr0; [|done].
      destruct (solve_all_never_slower g r0 reqs db Hr0) as (r & Hr' & _).
      congruence.
    + intros q Hq Hg.
      destruct (solve_all_named g q reqs db Hq Hg) as [r Hr']. congruence.
Qed.

(** ** Two calls in flight, on a game that has a record *)

Section RaceKeepsRecord.
Variables a b : solve_request.
Variable g : Z.
Variable r0 : row.

Lemma solve_step_keeps req pc db :
  (req = a ∨ req = b) → stored_ok a b g r0 db → read_ok g r0 req pc →
  stored_ok a b g r0 (solve_step req pc db).2 ∧
  read_ok g r0 req (solve_step req pc db).1.
Proof.
  intros Hreq (r & Hr & Hle & Hfrom) Hpc.
  destruct pc as [|current| |resp]; simpl.
  - split; [by exists r|]. intros ->. unfold select_time. rewrite Hr.
    by exists (time_ms r).
  - destruct (decide (gameNumber req = g)) as [Hg|Hg].
    + destruct (Hpc Hg) as (t & -> & Ht).
      destruct (Z.ltb_spec (timeMs req) t) as [Hlt|Hge]; [|split; [by exists r|done]].
      split; [|done]. exists (Row (timeMs req) (numGuesses req)).
      unfold insert_or_replace. rewrite Hg, lookup_insert_eq.
      split_and!; [done|simpl; lia|].
      destruct Hreq as [-> | ->]; auto.
    + split; [|done]. exists r.
      destruct (match current with Some t => timeMs req <? t | None => true end);
        [|done].
      unfold insert_or_replace. by rewrite lookup_insert_ne.
  - split; [by exists r|done].
  - split; [by exists r|done].
Qed.

Lemma race_step_keeps (r : race) who :
  stored_ok a b g r0 (store r) ∧ read_ok g r0 a (first_call r) ∧
  read_ok g r0 b (second_call r) →
  let r' := race_step a b r who in
  stored_ok a b g r0 (store r') ∧ read_ok g r0 a (first_call r') ∧
  read_ok g r0 b (second_call r').
Proof.
  intros (Hs & Ha & Hb). unfold race_step. destruct who.
  - destruct (solve_step_keeps b (second_call r) (store r)) as [Hs' Hb'];
      [by right|done..|].
    destruct (solve_step b (second_call r) (store r)) as [pc db]. by simpl in *.
  - destruct (solve_step_keeps a (first_call r) (store r)) as [Hs' Ha'];
      [by left|done..|].
    destruct (solve_step a (first_call r) (store r)) as [pc db]. by simpl in *.
Qed.

(** However the statements of two calls interleave, and however far they
    got, a game that had a record still has one; its time is no more than
    before, and it is the old record or the row of one of the two calls. *)
Theorem race_keeps_record (db : table) (schedule : list bool) :
  db !! g = Some r0 →
  ∃ r, store (race_run a b db schedule) !! g = Some r ∧
       time_ms r <= time_ms r0 ∧
       (r = r0 ∨
        (gameNumber a = g ∧ r = Row (timeMs a) (numGuesses a)) ∨
        (gameNumber b = g ∧ r = Row (timeMs b) (numGuesses b))).
Proof.
  intros Hdb. unfold race_run.
  assert (stored_ok a b g r0 db) as Hstart by (exists r0; split_and!; [done|lia|by left]).
  cut (∀ r, stored_ok a b g r0 (store r) ∧ read_ok g r0 a (first_call r) ∧
            read_ok g r0 b (second_call r) →
            stored_ok a b g r0 (store (foldl (race_step a b) r schedule))).
  { intros H. apply (H {| store := db; first_call := AtSelect;
                          second_call := AtSelect |}). by simpl. }
  induction schedule as [|who schedule IH]; intros r Hr; simpl; [by destruct Hr|].
  apply IH. by apply race_step_keeps.
Qed.
End RaceKeepsRecord.

Lemma race_keeps_record_witness :
  ∃ r, store (race_run (SolveRequest 7 420 4) (SolveRequest 7 419 5)
                (<[7 := Row 500 3]> ∅) [false; true; true; false]) !! 7 = Some r ∧
       time_ms r <= time_ms (Row 500 3) ∧
       (r = Row 500 3 ∨
        (7 = 7 ∧ r = Row 420 4) ∨
        (7 = 7 ∧ r = Row 419 5)).
Proof.
  apply (race_keeps_record (SolveRequest 7 420 4) (SolveRequest 7 419 5) 7
           (Row 500 3) (<[7 := Row 500 3]> ∅) [false; true; true; false]).
  reflexivity.
Defined.

(** ** The route parameter of [GET /api/fastest/:gameNumber] *)

Ltac read_digit :=
  match goal with
  | |- context [digit_value ?r (N_of_ascii ?a)] =>
      let v := eval vm_compute in (digit_value r (N_of_ascii a)) in
      change (digit_value r (N_of_ascii a)) with v
  end; cbv beta iota.

Lemma parse_digits_uint_acc d acc tail :
  stops tail →
  parse_digits 10 (Z.pos acc) (str (NilEmpty.string_of_uint d) ++ tail) =
  Z.pos (Pos.of_uint_acc d acc).
Proof.
  intros Htail. revert acc.
  induction d as [|d IH|d IH|d IH|d IH|d IH|d IH|d IH|d IH|d IH|d IH];
    intros acc; cbn [NilEmpty.string_of_uint Pos.of_uint_acc];
    [ destruct tail as [|c tail]; [done|]; simpl in *; by rewrite Htail | ..];
    change (str (String ?a ?s)) with (N_of_ascii a :: str s);
    cbn [app parse_digits]; read_digit;
    rewrite <- IH; f_equal; lia.
Qed.

Lemma parse_digits_uint d tail :
  stops tail →
  parse_digits 10 0 (str (NilEmpty.string_of_uint d) ++ tail) =
  Z.of_N (Pos.of_uint d).
Proof.
  intros Htail.
  induction d as [|d IH|d IH|d IH|d IH|d IH|d IH|d IH|d IH|d IH|d IH];
    cbn [NilEmpty.string_of_uint Pos.of_uint];
    [ destruct tail as [|c tail]; [done|]; simpl in *; by rewrite Htail | ..];
    change (str (String ?a ?s)) with (N_of_ascii a :: str s);
    cbn [app parse_digits]; read_digit;
    [ exact IH | ..];
    (etransitivity; [|apply (parse_digits_uint_acc d _ tail Htail)]);
    reflexivity.
Qed.

Lemma may_follow_stops z tail : may_follow z tail → stops tail.
Proof. destruct tail; [done|]. by intros [? _]. Qed.

Lemma hex_prefix_uint d tail :
  Pos.of_uint d ≠ 0%N →
  hex_prefix (str (NilEmpty.string_of_uint d) ++ tail) = false.
Proof.
  intros Hd. destruct d as [|d|d|d|d|d|d|d|d|d|d]; try done;
    try (destruct d; try done; by destruct tail).
Qed.

Lemma first_digit_uint d tail :
  d ≠ Decimal.Nil →
  ∃ c r v, str (NilEmpty.string_of_uint d) ++ tail = c :: r ∧
           digit_value 10 c = Some v.
Proof.
  intros Hd. destruct d; [done|..];
    cbn [NilEmpty.string_of_uint];
    change (str (String ?a ?s)) with (N_of_ascii a :: str s);
    cbn [app]; do 3 eexists; (split; [reflexivity|]); vm_compute; reflexivity.
Qed.

Lemma parse_magnitude_uint sign d tail :
  stops tail → Pos.of_uint d ≠ 0%N →
  Z.abs (sign * Z.of_N (Pos.of_uint d)) < 9007199254740992 →
  parse_magnitude sign (str (NilEmpty.string_of_uint d) ++ tail) =
  Some (sign * Z.of_N (Pos.of_uint d)).
Proof.
  intros Htail Hd Hsmall. unfold parse_magnitude.
  rewrite hex_prefix_uint by done.
  destruct (first_digit_uint d tail) as (c & r & v & Hs & Hc);
    [by intros ->|].
  rewrite <- (parse_digits_uint d tail Htail) in *.
  rewrite Hs in *. rewrite Hc. cbv zeta.
  by apply Z.ltb_lt in Hsmall as ->.
Qed.

Lemma skip_white_space_digit c r v :
  digit_value 10 c = Some v → skip_white_space (c :: r) = c :: r.
Proof.
  intros Hc. simpl.
  destruct (StrWhiteSpaceChar c) eqn:Hw; [|done]. exfalso.
  unfold StrWhiteSpaceChar in Hw. apply bool_decide_eq_true in Hw.
  repeat (apply elem_of_cons in Hw as [->|Hw]; [by vm_compute in Hc|]).
  by apply elem_of_nil in Hw.
Qed.

Lemma digit_not_sign c v :
  digit_value 10 c = Some v → (c =? 45)%N = false ∧ (c =? 43)%N = false.
Proof.
  intros Hc. split; apply N.eqb_neq; intros ->; by vm_compute in Hc.
Qed.

Lemma string_of_uint_nonnil d :
  d ≠ Decimal.Nil → NilZero.string_of_uint d = NilEmpty.string_of_uint d.
Proof. by destruct d. Qed.

Lemma parseInt_decimal (z : Z) (tail : jsstring) :
  Z.abs z < 9007199254740992 → may_follow z tail →
  parseInt (decimal z ++ tail) = Some z.
Proof.
  intros Hsmall Htail. pose proof (may_follow_stops _ _ Htail) as Hstop.
  unfold decimal, parseInt. destruct z as [|p|p]; cbn [Z.to_int].
  - change (str _) with [48%N]. cbn [app skip_white_space].
    change (StrWhiteSpaceChar 48%N) with false. cbv iota.
    change ((48 =? 45)%N) with false. change ((48 =? 43)%N) with false.
    cbv iota. unfold parse_magnitude.
    match goal with
    | |- context [hex_prefix ?s] => assert (hex_prefix s = false) as ->
    end.
    { destruct tail as [|c tail]; [done|]. destruct Htail as [_ Hx].
      destruct (Hx eq_refl) as [H1 H2]. simpl.
      apply N.eqb_neq in H1 as ->. by apply N.eqb_neq in H2 as ->. }
    change (digit_value 10 48%N) with (Some 0). cbv iota zeta.
    cbn [parse_digits]. change (digit_value 10 48%N) with (Some 0). cbv iota.
    destruct tail as [|c tail]; [done|]. simpl in Hstop.
    cbn [parse_digits]. by rewrite Hstop.
  - pose proof (DecimalPos.Unsigned.of_to p) as Hp.
    pose proof (DecimalPos.Unsigned.to_uint_nonnil p) as Hnil.
    cbn [NilZero.string_of_int NilZero.string_of_uint].
    rewrite (string_of_uint_nonnil (Pos.to_uint p))
      by apply DecimalPos.Unsigned.to_uint_nonnil.
    destruct (first_digit_uint (Pos.to_uint p) tail Hnil) as (c & r & v & Hs & Hc).
    rewrite Hs. rewrite (skip_white_space_digit c r v Hc).
    destruct (digit_not_sign c v Hc) as [-> ->]. rewrite <- Hs.
    rewrite parse_magnitude_uint; rewrite ?Hp; [f_equal; lia|done|done|lia].
  - pose proof (DecimalPos.Unsigned.of_to p) as Hp.
    cbn [NilZero.string_of_int NilZero.string_of_uint].
    rewrite (string_of_uint_nonnil (Pos.to_uint p))
      by apply DecimalPos.Unsigned.to_uint_nonnil.
    change (str (String ?a ?s)) with (N_of_ascii a :: str s).
    change (N_of_ascii "-") with 45%N.
    cbn [app skip_white_space].
    change (StrWhiteSpaceChar 45%N) with false. cbv iota.
    change ((45 =? 45)%N) with true. cbv iota.
    rewrite parse_magnitude_uint; rewrite ?Hp; [f_equal; lia|done|done|lia].
Qed.

(** The address the client builds for the game [gn] reads the record of the
    game [gn], for every integer [gn] below 2^53 in magnitude; so does the
    address with anything after the number that is no digit (nor an [x]
    after a lone 0, which would make it hexadecimal). *)
Theorem fastest_route_decimal (db : table) (gn : Z) (tail : jsstring) :
  Z.abs gn < 9007199254740992 → may_follow gn tail →
  parseInt (fastest_param gn ++ tail) = Some gn ∧
  fastest_route db (fastest_param gn ++ tail) = Some (fastest_handler db gn).
Proof.
  intros Hsmall Htail. unfold fastest_route, fastest_param.
  by rewrite parseInt_decimal.
Qed.

Lemma fastest_route_decimal_witness :
  parseInt (fastest_param 424 ++ str "abc") = Some 424 ∧
  fastest_route (<[424 := Row 500 4]> ∅) (fastest_param 424 ++ str "abc") =
  Some (fastest_handler (<[424 := Row 500 4]> ∅) 424).
Proof.
  apply (fastest_route_decimal (<[424 := Row 500 4]> ∅) 424 (str "abc")).
  - reflexivity.
  - split; [reflexivity|]. discriminate.
Defined.

Example fastest_route_hexadecimal :
  fastest_route (<[31 := Row 500 4]> ∅) (fastest_param 0 ++ str "x1f")
  = Some {| fastestTimeMs := Some 500; fastestGuesses := Some 4 |}.
Proof. reflexivity. Qed.

(** * Further properties of the calendar *)

Lemma DayWithinYear_range t :
  0 <= JsDate.DayWithinYear t < JsDate.DaysInYear (JsDate.YearFromTime t).
Proof.
  pose proof (YearFromTime_bracket t) as [Hlo Hhi].
  rewrite DayFromYear_succ in Hhi. unfold JsDate.DayWithinYear. lia.
Qed.

(** Month and day of the month give back the day of the year. *)
Lemma monthStart_date t :
  monthStart (JsDate.MonthFromTime t) (JsDate.InLeapYear t)
  + JsDate.DateFromTime t - 1 = JsDate.DayWithinYear t.
Proof.
  pose proof (DayWithinYear_range t) as Hd.
  unfold JsDate.DateFromTime, JsDate.MonthFromTime.
  assert (JsDate.InLeapYear t = 0 ∨ JsDate.InLeapYear t = 1) as Hl.
  { unfold JsDate.InLeapYear. case_match; auto. }
  generalize dependent (JsDate.DayWithinYear t). intros d Hd.
  destruct Hl as [-> | ->]; cbv zeta;
    repeat match goal with
      | |- context [?a <? ?b] => destruct (Z.ltb_spec a b)
      end; simpl; lia.
Qed.

(** [MakeDay] on the year, month and day of a time value, the day moved by
    [k], is the day number moved by [k]. *)
Lemma MakeDay_of_date t k :
  MakeDay (JsDate.getUTCFullYear t) (JsDate.getUTCMonth t)
          (JsDate.getUTCDate t + k) = JsDate.Day t + k.
Proof.
  pose proof (month_and_date_range t) as [Hm _].
  pose proof (monthStart_date t) as Hinv.
  unfold MakeDay, JsDate.getUTCFullYear, JsDate.getUTCMonth, JsDate.getUTCDate in *.
  rewrite Z.div_small, Z.mod_small, Z.add_0_r by lia.
  unfold JsDate.InLeapYear, JsDate.DayWithinYear in Hinv. lia.
Qed.

(** Year, month and day of the month determine the day: two time values
    with the same three are in the same UTC day, and conversely. *)
Lemma same_date_same_day t1 t2 :
  JsDate.Day t1 = JsDate.Day t2 ↔
  JsDate.getUTCFullYear t1 = JsDate.getUTCFullYear t2 ∧
  JsDate.getUTCMonth t1 = JsDate.getUTCMonth t2 ∧
  JsDate.getUTCDate t1 = JsDate.getUTCDate t2.
Proof.
  split; [apply same_day_same_date|]. intros (Hy & Hm & Hd).
  pose proof (MakeDay_of_date t1 0) as H1.
  pose proof (MakeDay_of_date t2 0) as H2.
  rewrite Hy, Hm, Hd in H1. lia.
Qed.

(** ** The date text *)

Lemma str_inj s1 s2 : str s1 = str s2 → s1 = s2.
Proof.
  unfold str. intros H.
  rewrite <- (String.string_of_list_ascii_of_string s1).
  rewrite <- (String.string_of_list_ascii_of_string s2). f_equal.
  revert H. generalize (String.list_ascii_of_string s1).
  generalize (String.list_ascii_of_string s2).
  intros l2 l1. revert l2. induction l1 as [|a l1 IH]; intros [|b l2] H;
    simplify_eq/=; [done|].
  f_equal; [|by apply IH].
  rewrite <- (ascii_N_embedding a), <- (ascii_N_embedding b). by f_equal.
Qed.

Lemma decimal_inj z1 z2 : decimal z1 = decimal z2 → z1 = z2.
Proof.
  unfold decimal. intros H%str_inj. apply DecimalZ.to_int_inj.
  assert (∀ z, Z.to_int z ≠ Decimal.Pos Decimal.Nil ∧
               Z.to_int z ≠ Decimal.Neg Decimal.Nil) as Hnz.
  { intros [|p|p]; simpl; split; try done; intros [= Hp];
      by apply (DecimalPos.Unsigned.to_uint_nonnil p). }
  apply (f_equal NilZero.int_of_string) in H.
  rewrite !NilZero.isi in H by apply Hnz. by injection H.
Qed.

Lemma digits_no_dash d : 45%N ∉ str (NilEmpty.string_of_uint d).
Proof.
  induction d; cbn [NilEmpty.string_of_uint]; [by apply not_elem_of_nil|..];
    change (str (String ?a ?s)) with (N_of_ascii a :: str s);
    apply not_elem_of_cons; (split; [by vm_compute|done]).
Qed.

Lemma decimal_no_dash z : 0 <= z → 45%N ∉ decimal z.
Proof.
  intros Hz. unfold decimal. destruct z as [|p|p]; [|..|lia].
  - vm_compute. by intros [[=]|[]%elem_of_nil]%elem_of_cons.
  - cbn [Z.to_int NilZero.string_of_int].
    rewrite string_of_uint_nonnil by apply DecimalPos.Unsigned.to_uint_nonnil.
    apply digits_no_dash.
Qed.

Lemma split_at_last (x : code_unit) (l1 l2 l1' l2' : jsstring) :
  x ∉ l2 → x ∉ l2' → l1 ++ x :: l2 = l1' ++ x :: l2' → l1 = l1' ∧ l2 = l2'.
Proof.
  intros H2 H2'. revert l1'.
  induction l1 as [|a l1 IH]; intros [|b l1'] H; simplify_eq/=.
  - done.
  - exfalso. apply H2. apply elem_of_app. right. by left.
  - exfalso. apply H2'. apply elem_of_app. right. by left.
  - destruct (IH l1') as [-> ->]; done.
Qed.

(** Two clock readings have the same date text exactly when they are in the
    same UTC day: the text the word is hashed from changes at every UTC
    midnight and at no other time. *)
Theorem dateStr_identifies_day (t1 t2 : Z) :
  dateStr t1 = dateStr t2 ↔ JsDate.Day t1 = JsDate.Day t2.
Proof.
  rewrite same_date_same_day. split.
  - unfold dateStr. change (str "-") with [45%N].
    pose proof (month_and_date_range t1) as [Hm1 Hd1].
    pose proof (month_and_date_range t2) as [Hm2 Hd2].
    rewrite !(app_assoc (decimal (JsDate.getUTCFullYear _))).
    rewrite !(app_assoc _ (decimal (JsDate.getUTCMonth _ + 1))).
    intros [H Hd]%split_at_last; [|apply decimal_no_dash; lia..].
    rewrite <- !app_assoc in H.
    apply split_at_last in H as [Hy Hm]; [|apply decimal_no_dash; lia..].
    apply decimal_inj in Hy, Hm, Hd. split_and!; [done|lia|done].
  - intros (Hy & Hm & Hd). unfold dateStr. by rewrite Hy, Hm, Hd.
Qed.

(** * The client *)

(** ** The countdown *)

Lemma tomorrow_value now :
  ¬ 0 <= JsDate.getUTCFullYear now <= 99 →
  -8640000000000000 <= now <= 8640000000000000 - 86400000 →
  tomorrow now = Some ((JsDate.Day now + 1) * 86400000).
Proof.
  intros Hyear Hnow. unfold tomorrow, Date_UTC.
  replace ((0 <=? JsDate.getUTCFullYear now) && (JsDate.getUTCFullYear now <=? 99))
    with false by (symmetry; apply andb_false_iff; lia).
  rewrite MakeDay_of_date. unfold TimeClip, JsDate.msPerDay.
  replace (Z.abs ((JsDate.Day now + 1) * 86400000) <=? 8640000000000000)
    with true; [done|].
  symmetry. apply Z.leb_le. unfold JsDate.Day, JsDate.msPerDay.
  Z.div_mod_to_equations. lia.
Qed.

(** For a clock reading of a year outside 0..99 and before the last day a
    [Date] can hold, the instant the countdown runs to is the coming UTC
    midnight: it lies after the reading, at most a day away, the game number
    is one more from that instant on, and it is the same until then. *)
Theorem tomorrow_is_next_game (now : Z) :
  ¬ 0 <= JsDate.getUTCFullYear now <= 99 →
  -8640000000000000 <= now <= 8640000000000000 - 86400000 →
  ∃ t, tomorrow now = Some t ∧
       t mod 86400000 = 0 ∧
       now < t <= now + 86400000 ∧
       getGameNumber t = getGameNumber now + 1 ∧
       ∀ u, now <= u < t → getGameNumber u = getGameNumber now.
Proof.
  intros Hyear Hnow. exists ((JsDate.Day now + 1) * 86400000).
  split; [by apply tomorrow_value|].
  unfold getGameNumber, JsDate.Day, JsDate.msPerDay. rewrite start_value.
  split_and!; try intros u Hu; Z.div_mod_to_equations; lia.
Qed.

Lemma tomorrow_is_next_game_witness :
  ∃ t, tomorrow 1709208000000 = Some t ∧
       t mod 86400000 = 0 ∧
       1709208000000 < t <= 1709208000000 + 86400000 ∧
       getGameNumber t = getGameNumber 1709208000000 + 1 ∧
       ∀ u, 1709208000000 <= u < t → getGameNumber u = getGameNumber 1709208000000.
Proof.
  apply (tomorrow_is_next_game 1709208000000).
  - vm_compute. intros [_ H]. by apply H.
  - lia.
Defined.

Lemma padStart2_two_digits x :
  0 <= x < 100 →
  padStart2 (decimal x) = [Z.to_N (48 + x / 10); Z.to_N (48 + x mod 10)].
Proof.
  intros Hx.
  assert (forallb (λ n, bool_decide
            (padStart2 (decimal (Z.of_nat n)) =
             [Z.to_N (48 + Z.of_nat n / 10); Z.to_N (48 + Z.of_nat n mod 10)]))
            (seq 0 100) = true) as Hall by (vm_compute; reflexivity).
  rewrite forallb_forall in Hall.
  specialize (Hall (Z.to_nat x)). rewrite Z2Nat.id in Hall by lia.
  apply bool_decide_eq_true in Hall; [done|].
  apply in_seq. lia.
Qed.

(** Under the same conditions the countdown text is [hh:mm:ss], two digits
    each: the whole seconds left until the coming UTC midnight, with [hh] up
    to 24 (at a midnight sharp the text is 24:00:00) and [mm], [ss] below 60. *)
Theorem countdown_text (now : Z) :
  ¬ 0 <= JsDate.getUTCFullYear now <= 99 →
  -8640000000000000 <= now <= 8640000000000000 - 86400000 →
  ∃ h m s,
    countdown now =
      [Z.to_N (48 + h / 10); Z.to_N (48 + h mod 10); 58%N;
       Z.to_N (48 + m / 10); Z.to_N (48 + m mod 10); 58%N;
       Z.to_N (48 + s / 10); Z.to_N (48 + s mod 10)] ∧
    0 <= h <= 24 ∧ 0 <= m < 60 ∧ 0 <= s < 60 ∧
    h * 3600 + m * 60 + s = ((JsDate.Day now + 1) * 86400000 - now) / 1000 ∧
    (h = 24 ↔ now mod 86400000 = 0).
Proof.
  intros Hyear Hnow. unfold countdown. rewrite tomorrow_value by done.
  set (diff := (JsDate.Day now + 1) * 86400000 - now).
  assert (0 < diff <= 86400000) as Hdiff.
  { unfold diff, JsDate.Day, JsDate.msPerDay. Z.div_mod_to_equations. lia. }
  rewrite !Z.rem_mod_nonneg by lia.
  exists (diff / 3600000), (diff mod 3600000 / 60000), (diff mod 60000 / 1000).
  assert (0 <= diff / 3600000 <= 24) by (Z.div_mod_to_equations; lia).
  assert (0 <= diff mod 3600000 / 60000 < 60) by (Z.div_mod_to_equations; lia).
  assert (0 <= diff mod 60000 / 1000 < 60) by (Z.div_mod_to_equations; lia).
  split_and!; try lia.
  - rewrite !padStart2_two_digits by lia. reflexivity.
  - Z.div_mod_to_equations. lia.
  - unfold diff, JsDate.Day, JsDate.msPerDay. Z.div_mod_to_equations. lia.
Qed.

Lemma countdown_text_witness :
  ∃ h m s,
    countdown 1709208000000 =
      [Z.to_N (48 + h / 10); Z.to_N (48 + h mod 10); 58%N;
       Z.to_N (48 + m / 10); Z.to_N (48 + m mod 10); 58%N;
       Z.to_N (48 + s / 10); Z.to_N (48 + s mod 10)] ∧
    0 <= h <= 24 ∧ 0 <= m < 60 ∧ 0 <= s < 60 ∧
    h * 3600 + m * 60 + s =
      ((JsDate.Day 1709208000000 + 1) * 86400000 - 1709208000000) / 1000 ∧
    (h = 24 ↔ 1709208000000 mod 86400000 = 0).
Proof.
  apply (countdown_text 1709208000000).
  - vm_compute. intros [_ H]. by apply H.
  - lia.
Defined.

Example countdown_at_noon : countdown 1709208000000 = str "12:00:00".
Proof. vm_compute. reflexivity. Qed.

Example countdown_at_midnight : countdown 1709164800000 = str "24:00:00".
Proof. vm_compute. reflexivity. Qed.

(** ** The colours of the keyboard *)

Lemma key_step_other letters states next i (k : jsstring) :
  property_key (letters !! i) ≠ k →
  key_step letters states next i !! k = next !! k.
Proof.
  intros Hk. unfold key_step.
  destruct (states !! i) as [[]|]; try case_decide;
    try destruct (next !! property_key (letters !! i));
    by rewrite ?lookup_insert_ne.
Qed.

(** One step of the loop, seen from one key. *)
Lemma key_step_cases letters states next i (k : jsstring) :
  let next' := key_step letters states next i in
  next' !! k = next !! k ∨
  (property_key (letters !! i) = k ∧
   ((states !! i = Some Correct ∧ next' !! k = Some Correct) ∨
    (states !! i = Some Present ∧ next !! k ≠ Some Correct ∧
     next' !! k = Some Present) ∨
    (∃ s, states !! i = Some s ∧ s ≠ Correct ∧ s ≠ Present ∧
          next !! k = None ∧ next' !! k = Some s))).
Proof.
  intros next'. subst next'.
  destruct (decide (property_key (letters !! i) = k)) as [<-|Hk];
    [|left; by apply key_step_other].
  unfold key_step.
  destruct (states !! i) as [s|] eqn:Hs; [|by left].
  destruct s.
  - right. split; [done|]. left. by rewrite lookup_insert_eq.
  - case_decide as Hc; [by left|]. right. split; [done|]. right. left.
    by rewrite lookup_insert_eq.
  - destruct (next !! property_key (letters !! i)) eqn:Hn; [by left|].
    right. split; [done|]. right. right. exists Absent.
    by rewrite lookup_insert_eq.
  - destruct (next !! property_key (letters !! i)) eqn:Hn; [by left|].
    right. split; [done|]. right. right. exists Empty.
    by rewrite lookup_insert_eq.
  - destruct (next !! property_key (letters !! i)) eqn:Hn; [by left|].
    right. split; [done|]. right. right. exists Tbd.
    by rewrite lookup_insert_eq.
Qed.

Lemma key_step_rank letters states next i (k : jsstring) :
  (rank (next !! k) ≤ rank (key_step letters states next i !! k))%nat ∧
  (rank (next !! k) = rank (key_step letters states next i !! k) →
   key_step letters states next i !! k = next !! k).
Proof.
  destruct (key_step_cases letters states next i k)
    as [->|(_ & [(_ & ->)|[(_ & Hn & ->)|(s & _ & Hc & Hp & -> & ->)]])].
  - done.
  - destruct (next !! k) as [[]|]; simpl; split; (lia || done).
  - destruct (next !! k) as [[]|]; simpl; split; (lia || done).
  - destruct s; simpl; split; (lia || done).
Qed.

(** A key never loses colour: after the update its state is as far as
    before or further (none, then absent or another state, then present, then
    correct), and it is a different state only if it is further. *)
Theorem updateKeyStates_never_downgrades (letters : jsstring)
    (states : list TileState) (prev : gmap jsstring TileState) (k : jsstring) :
  (rank (prev !! k) ≤ rank (updateKeyStates letters states prev !! k))%nat ∧
  (rank (prev !! k) = rank (updateKeyStates letters states prev !! k) →
   updateKeyStates letters states prev !! k = prev !! k).
Proof.
  unfold updateKeyStates. generalize (seq 0 5). intros l. revert prev.
  induction l as [|i l IH]; intros prev; simpl; [done|].
  destruct (IH (key_step letters states prev i)) as [Hle Heq].
  destruct (key_step_rank letters states prev i k) as [Hle1 Heq1].
  split; [lia|]. intros Hr.
  rewrite Heq by lia. apply Heq1. lia.
Qed.

(** Where the state of a key after the loop comes from. *)
Lemma key_steps_origin letters states (l : list nat) prev (k : jsstring) :
  let next := foldl (key_step letters states) prev l in
  match next !! k with
  | Some Correct =>
      prev !! k = Some Correct ∨
      ∃ i, i ∈ l ∧ property_key (letters !! i) = k ∧ states !! i = Some Correct
  | Some Present =>
      prev !! k = Some Present ∨
      ∃ i, i ∈ l ∧ property_key (letters !! i) = k ∧ states !! i = Some Present
  | Some s =>
      (prev !! k = Some s ∨
       (prev !! k = None ∧
        ∃ i, i ∈ l ∧ property_key (letters !! i) = k ∧ states !! i = Some s)) ∧
      ∀ i, i ∈ l → property_key (letters !! i) = k →
           states !! i ≠ Some Correct ∧ states !! i ≠ Some Present
  | None =>
      prev !! k = None ∧
      ∀ i, i ∈ l → property_key (letters !! i) = k → states !! i = None
  end.
Proof.
  induction l as [|i l IH] using rev_ind; intros next; subst next.
  - simpl. destruct (prev !! k) as [[]|]; try (by left);
      (split; [by left + done|]); by intros i ?%elem_of_nil.
  - rewrite foldl_snoc. cbv zeta in IH.
    set (mid := foldl (key_step letters states) prev l) in *.
    assert (∀ j, j ∈ l → j ∈ l ++ [i]) as Hin
      by (intros j Hj; apply elem_of_app; by left).
    assert (i ∈ l ++ [i]) as Hi by (apply elem_of_app; right; by left).
    destruct (key_step_cases letters states mid i k)
      as [Hsame|(Hk & [(Hs & ->)|[(Hs & Hn & ->)|(s & Hs & Hc & Hp & Hn & ->)]])].
    + rewrite Hsame.
      assert (property_key (letters !! i) = k →
              (mid !! k ≠ Some Correct → states !! i ≠ Some Correct) ∧
              (mid !! k ≠ Some Correct → mid !! k ≠ Some Present →
               states !! i ≠ Some Present) ∧
              (mid !! k = None → states !! i = None)) as Hstay.
      { intros Hk. revert Hsame. unfold key_step. rewrite Hk.
        destruct (states !! i) as [[]|]; try case_decide as Hm;
          try destruct (mid !! k) as [[]|] eqn:Hmid;
          rewrite ?lookup_insert_eq; intros Hsame; simplify_eq; done. }
      destruct (mid !! k) as [[]|] eqn:Hmid.
      * destruct IH as [?|(j & ? & ? & ?)]; [by left|right; eauto].
      * destruct IH as [?|(j & ? & ? & ?)]; [by left|right; eauto].
      * destruct IH as [Hfrom Hall]. split.
        -- destruct Hfrom as [?|(? & j & ? & ? & ?)]; [by left|right; eauto 6].
        -- intros j [Hj| ->%list_elem_of_singleton]%elem_of_app Hkj;
             [by apply Hall|]. destruct (Hstay Hkj) as (Hc & Hp & _).
           split; [by apply Hc|by apply Hp].
      * destruct IH as [Hfrom Hall]. split.
        -- destruct Hfrom as [?|(? & j & ? & ? & ?)]; [by left|right; eauto 6].
        -- intros j [Hj| ->%list_elem_of_singleton]%elem_of_app Hkj;
             [by apply Hall|]. destruct (Hstay Hkj) as (Hc & Hp & _).
           split; [by apply Hc|by apply Hp].
      * destruct IH as [Hfrom Hall]. split.
        -- destruct Hfrom as [?|(? & j & ? & ? & ?)]; [by left|right; eauto 6].
        -- intros j [Hj| ->%list_elem_of_singleton]%elem_of_app Hkj;
             [by apply Hall|]. destruct (Hstay Hkj) as (Hc & Hp & _).
           split; [by apply Hc|by apply Hp].
      * destruct IH as [Hfrom Hall]. split; [done|].
        intros j [Hj| ->%list_elem_of_singleton]%elem_of_app Hkj;
          [by apply Hall|]. by apply Hstay.
    + right. eauto.
    + right. eauto.
    + rewrite Hn in IH. destruct IH as [Hprev Hall].
      destruct s; try done;
        (split; [right; split; [done|]; eauto|]);
        intros j [Hj| ->%list_elem_of_singleton]%elem_of_app Hkj;
        try (rewrite (Hall j Hj Hkj); done); rewrite Hs; done.
Qed.

Lemma marked_none c (guess : jsstring) (r : list tag) :
  (∀ i, guess !! i = Some c → r !! i = Some absent) →
  marked c guess r = 0%nat.
Proof.
  revert r. induction guess as [|g guess IH]; intros [|u r] Hall; simpl;
    try done.
  rewrite IH by (intros i; apply (Hall (S i))).
  destruct (decide (g = c)) as [->|Hne].
  - specialize (Hall 0%nat eq_refl). simplify_eq/=.
    by rewrite decide_False by (by intros [_ ?]).
  - by rewrite decide_False by (by intros [? _]).
Qed.

Lemma occurrences_pos c (w : jsstring) : c ∈ w → (0 < occurrences c w)%nat.
Proof.
  unfold occurrences. induction w as [|d w IH]; [by intros ?%elem_of_nil|].
  rewrite filter_cons. intros [->|Hc]%elem_of_cons.
  - rewrite decide_True by done. simpl. lia.
  - specialize (IH Hc). case_decide; simpl; lia.
Qed.

(** What the tags of a row tell about one letter of the guess. *)
Lemma evaluate_row_letter (guess answer : jsstring) (c : code_unit) :
  length guess = 5%nat → length answer = 5%nat → c ≠ underscore →
  (∀ i, guess !! i = Some c → evaluate guess answer !! i = Some correct →
        answer !! i = Some c) ∧
  (∀ i, guess !! i = Some c → evaluate guess answer !! i = Some present →
        c ∈ answer) ∧
  (c ∈ guess →
   (∀ i, guess !! i = Some c → evaluate guess answer !! i = Some absent) →
   c ∉ answer).
Proof.
  intros Hg Ha Hc.
  destruct (evaluate_final_state guess answer c) as (-> & Hinv & Htags);
    [done..|].
  set (final := foldl second_pass (after_first_pass guess answer) (seq 0 5)) in *.
  assert (length guess = length answer) as Hlen by congruence.
  split_and!.
  - intros i Hi Hr. apply (tags_correct _ _ _ _ _ Htags) in Hr.
    apply after_first_pass_result_correct in Hr as [_ Hr]; [|done]. congruence.
  - intros i Hi (g & idx & Hgi & Hne & Hidx)%(tags_present _ _ _ _ _ Htags).
    apply after_first_pass_guess_letter in Hgi as [Hgi _]; [|done].
    apply after_first_pass_answer_letter in Hidx as [Hidx _]; [|done].
    simplify_eq. by eapply list_elem_of_lookup_2.
  - intros [j Hj]%list_elem_of_lookup_1 Habs Hin.
    pose proof (inv_count _ _ _ _ _ Hinv) as Hcount.
    rewrite marked_none in Hcount by done.
    pose proof (occurrences_pos c answer Hin) as Hpos.
    destruct (after_first_pass_guess guess answer j c Hlen Hj) as [Hus|Hgc].
    + apply after_first_pass_matched in Hus; [|congruence].
      apply (tags_correct _ _ _ _ _ Htags) in Hus.
      specialize (Habs j Hj). congruence.
    + pose proof (tags_spent _ _ _ _ _ Htags j) as Hspent.
      rewrite Hspent in Hcount; [lia|apply not_elem_of_nil|done|by apply Habs].
Qed.

Lemma property_key_letter (o : option code_unit) (c : code_unit) :
  property_key o = [c] ↔ o = Some c.
Proof.
  destruct o as [d|]; simpl; [|done]. split; by intros [= ->].
Qed.

(** The keyboard tells the truth. After any rows of five-letter guesses
    scored against one five-letter answer, a key shown correct stands, in one
    of the rows, where the answer has that letter; a key shown present is a
    letter of the answer; a key shown absent is no letter of the answer; and
    a key has no colour only when no row had its letter. *)
Theorem keyboard_truthful (answer : jsstring) (guesses : list jsstring)
    (c : code_unit) :
  length answer = 5%nat → Forall (λ g, length g = 5%nat) guesses →
  c ≠ underscore →
  match keyboard_after answer guesses !! [c] with
  | Some Correct =>
      ∃ g i, g ∈ guesses ∧ g !! i = Some c ∧ answer !! i = Some c
  | Some Present => c ∈ answer
  | Some Absent => c ∉ answer
  | Some _ => False
  | None => ∀ g, g ∈ guesses → c ∉ g
  end.
Proof.
  intros Ha Hgs Hc. unfold keyboard_after.
  induction guesses as [|g gs IH] using rev_ind.
  - simpl. rewrite lookup_empty. by intros g ?%elem_of_nil.
  - apply Forall_app in Hgs as [Hgs [Hg _]%Forall_cons]. specialize (IH Hgs).
    rewrite foldl_snoc. unfold updateKeyStates at 1.
    set (prev := foldl _ ∅ gs) in *.
    set (r := evaluate g answer).
    destruct (evaluate_row_letter g answer c Hg Ha Hc) as (Hrc & Hrp & Hra).
    fold r in Hrc, Hrp, Hra.
    assert (∀ i, (i < 5)%nat → ∃ t, r !! i = Some t) as Hr.
    { intros i Hi. apply lookup_lt_is_Some_2. unfold r.
      by rewrite evaluate_length. }
    assert (∀ i t, (tile_of_tag <$> r) !! i = Some (tile_of_tag t) →
                   r !! i = Some t) as Htile.
    { intros i t. rewrite list_lookup_fmap.
      destruct (r !! i) as [[]|]; destruct t; by intros [=]. }
    assert (∀ i s, (tile_of_tag <$> r) !! i = Some s →
                   s = Correct ∨ s = Present ∨ s = Absent) as Hthree.
    { intros i s. rewrite list_lookup_fmap.
      destruct (r !! i) as [[]|]; intros [= <-]; auto. }
    assert (∀ g', g' ∈ gs → g' ∈ gs ++ [g]) as Hold
      by (intros g' ?; apply elem_of_app; by left).
    assert (g ∈ gs ++ [g]) as Hnew by (apply elem_of_app; right; by left).
    pose proof (key_steps_origin g (tile_of_tag <$> r) (seq 0 5) prev [c]) as H.
    cbv zeta in H.
    destruct (foldl (key_step g (tile_of_tag <$> r)) prev (seq 0 5) !! [c])
      as [[]|] eqn:Hnext.
    + destruct H as [Hprev|(i & _ & Hk%property_key_letter & Hs)].
      * rewrite Hprev in IH. destruct IH as (g' & i & ? & ? & ?).
        exists g', i. auto.
      * exists g, i. split_and!; [done..|]. apply Hrc; [done|].
        by apply (Htile i correct).
    + destruct H as [Hprev|(i & _ & Hk%property_key_letter & Hs)].
      * by rewrite Hprev in IH.
      * apply (Hrp i); [done|]. by apply (Htile i present).
    + destruct H as [[Hprev|(_ & i & _ & Hk%property_key_letter & Hs)] Hall].
      { by rewrite Hprev in IH. }
      apply Hra; [by eapply list_elem_of_lookup_2|].
      intros j Hj.
      assert (j < 5)%nat as Hlt by (rewrite <- Hg; by eapply lookup_lt_Some).
      destruct (Hr j Hlt) as [t Ht].
      destruct (Hall j) as [H1 H2];
        [apply elem_of_seq; lia|by apply property_key_letter|].
      rewrite list_lookup_fmap, Ht in H1, H2. by destruct t.
    + destruct H as [[Hprev|(_ & i & _ & _ & Hs)] _].
      * by rewrite Hprev in IH.
      * by destruct (Hthree i _ Hs) as [?|[?|?]].
    + destruct H as [[Hprev|(_ & i & _ & _ & Hs)] _].
      * by rewrite Hprev in IH.
      * by destruct (Hthree i _ Hs) as [?|[?|?]].
    + destruct H as [Hprev Hall]. rewrite Hprev in IH.
      intros g' [Hg'| ->%list_elem_of_singleton]%elem_of_app; [by apply IH|].
      intros [j Hj]%list_elem_of_lookup_1.
      assert (j < 5)%nat as Hlt by (rewrite <- Hg; by eapply lookup_lt_Some).
      destruct (Hr j Hlt) as [t Ht].
      specialize (Hall j). rewrite list_lookup_fmap, Ht in Hall.
      discriminate Hall; [apply elem_of_seq; lia|by apply property_key_letter].
Qed.

Lemma keyboard_truthful_witness :
  match keyboard_after (str "abide") [str "speed"; str "crane"] !! [letter_e] with
  | Some Correct =>
      ∃ g i, g ∈ [str "speed"; str "crane"] ∧ g !! i = Some letter_e ∧
             str "abide" !! i = Some letter_e
  | Some Present => letter_e ∈ str "abide"
  | Some Absent => letter_e ∉ str "abide"
  | Some _ => False
  | None => ∀ g, g ∈ [str "speed"; str "crane"] → letter_e ∉ g
  end.
Proof.
  apply (keyboard_truthful (str "abide") [str "speed"; str "crane"] letter_e).
  - reflexivity.
  - repeat constructor.
  - discriminate.
Defined.

(** * [evaluate] past the end of the guess *)

Lemma JsArray_get_set_eq (a : JsArray.t) i v :
  JsArray.get (JsArray.set a i v) i = Some v.
Proof.
  unfold JsArray.get, JsArray.set. case_decide as Hi.
  - by rewrite list_lookup_insert_eq.
  - rewrite lookup_app_r by lia.
    rewrite lookup_app_r by (rewrite length_replicate; lia).
    rewrite length_replicate.
    replace (i - length a - (i - length a))%nat with 0%nat by lia. done.
Qed.

Lemma JsArray_get_set_ne (a : JsArray.t) i j v :
  i ≠ j → JsArray.get (JsArray.set a i v) j = JsArray.get a j.
Proof.
  intros Hne. unfold JsArray.get, JsArray.set. case_decide as Hi.
  - by rewrite list_lookup_insert_ne.
  - destruct (decide (j < length a)%nat) as [Hj|Hj].
    + by rewrite lookup_app_l.
    + rewrite (lookup_ge_None_2 a j) by lia. rewrite lookup_app_r by lia.
      destruct (decide (j < i)%nat) as [Hlt|Hge].
      * rewrite lookup_app_l by (rewrite length_replicate; lia).
        rewrite lookup_replicate_2; [done|lia].
      * rewrite lookup_ge_None_2; [done|].
        rewrite length_app, length_replicate. simpl. lia.
Qed.

Lemma JsArray_indexOf_undefined (a : JsArray.t) : JsArray.indexOf a None = None.
Proof. induction a as [|v a IH]; simpl; [done|]. by rewrite IH. Qed.

Lemma first_pass_frame st k i :
  k ≠ i →
  result (first_pass st k) !! i = result st !! i ∧
  JsArray.get (guessLetters (first_pass st k)) i = JsArray.get (guessLetters st) i ∧
  JsArray.get (answerLetters (first_pass st k)) i = JsArray.get (answerLetters st) i ∧
  length (result (first_pass st k)) = length (result st).
Proof.
  intros Hne. unfold first_pass. case_decide; simpl; [|done].
  by rewrite list_lookup_insert_ne, !JsArray_get_set_ne, length_insert.
Qed.

Lemma first_pass_fold_frame l st i :
  i ∉ l →
  result (foldl first_pass st l) !! i = result st !! i ∧
  JsArray.get (guessLetters (foldl first_pass st l)) i
    = JsArray.get (guessLetters st) i ∧
  JsArray.get (answerLetters (foldl first_pass st l)) i
    = JsArray.get (answerLetters st) i ∧
  length (result (foldl first_pass st l)) = length (result st).
Proof.
  revert st. induction l as [|k l IH]; intros st Hi; simpl; [done|].
  apply not_elem_of_cons in Hi as [Hne Hi].
  destruct (IH (first_pass st k) Hi) as (-> & -> & -> & ->).
  by apply first_pass_frame.
Qed.

Lemma second_pass_frame st k i :
  k ≠ i →
  result (second_pass st k) !! i = result st !! i ∧
  guessLetters (second_pass st k) = guessLetters st.
Proof.
  intros Hne. unfold second_pass. case_decide; [done|].
  destruct (JsArray.indexOf _ _); simpl; [|done].
  by rewrite list_lookup_insert_ne.
Qed.

Lemma second_pass_fold_frame l st i :
  i ∉ l →
  result (foldl second_pass st l) !! i = result st !! i ∧
  guessLetters (foldl second_pass st l) = guessLetters st.
Proof.
  revert st. induction l as [|k l IH]; intros st Hi; simpl; [done|].
  apply not_elem_of_cons in Hi as [Hne Hi].
  destruct (IH (second_pass st k) Hi) as (-> & ->).
  by apply second_pass_frame.
Qed.

Lemma seq_around (i : nat) :
  (i < 5)%nat →
  seq 0 5 = seq 0 i ++ i :: seq (S i) (4 - i) ∧
  (i ∉ seq 0 i) ∧ (i ∉ seq (S i) (4 - i)).
Proof.
  intros Hi. split_and!.
  - replace 5%nat with (i + S (4 - i))%nat by lia. by rewrite seq_app.
  - rewrite elem_of_seq. lia.
  - rewrite elem_of_seq. lia.
Qed.

(** Past the end of the guess [evaluate] still gives a tag: [correct] where
    the answer has ended too (two missing letters are equal), [absent] where
    the answer has a letter. So two words shorter than five letters get
    [correct] at every position neither reaches. *)
Theorem evaluate_past_the_guess (guess answer : jsstring) (i : nat) :
  (i < 5)%nat → (length guess ≤ i)%nat →
  evaluate guess answer !! i =
  Some (if decide (length answer ≤ i)%nat then correct else absent).
Proof.
  intros Hi Hg. unfold evaluate.
  destruct (seq_around i Hi) as (-> & Hbefore & Hafter).
  rewrite !foldl_app. cbn [foldl].
  set (st0 := evaluate_init guess answer).
  set (st1 := foldl first_pass st0 (seq 0 i)).
  destruct (first_pass_fold_frame (seq 0 i) st0 i Hbefore) as (Hr1 & Hg1 & Ha1 & Hl1).
  fold st1 in Hr1, Hg1, Ha1, Hl1.
  assert (JsArray.get (guessLetters st0) i = None) as Hg0.
  { unfold JsArray.get. simpl. unfold JsArray.split.
    by rewrite list_lookup_fmap, lookup_ge_None_2. }
  assert (result st0 !! i = Some absent) as Hr0
    by (unfold st0, evaluate_init; cbn [result]; by apply lookup_replicate_2).
  assert (length (result st0) = 5%nat) as Hl0 by done.
  rewrite Hg0 in Hg1. rewrite Hr0 in Hr1. rewrite Hl0 in Hl1.
  set (st2 := first_pass st1 i).
  set (st3 := foldl first_pass st2 (seq (S i) (4 - i))).
  destruct (first_pass_fold_frame (seq (S i) (4 - i)) st2 i Hafter)
    as (Hr3 & Hg3 & _ & _). fold st3 in Hr3, Hg3.
  set (st4 := foldl second_pass st3 (seq 0 i)).
  destruct (second_pass_fold_frame (seq 0 i) st3 i Hbefore) as (Hr4 & Hg4).
  fold st4 in Hr4, Hg4.
  destruct (second_pass_fold_frame (seq (S i) (4 - i)) (second_pass st4 i) i Hafter)
    as (-> & _).
  case_decide as Ha.
  - assert (JsArray.get (answerLetters st1) i = None) as Ha1'.
    { rewrite Ha1. unfold JsArray.get. simpl. unfold JsArray.split.
      by rewrite list_lookup_fmap, lookup_ge_None_2. }
    assert (result st2 !! i = Some correct ∧
            JsArray.get (guessLetters st2) i = Some underscore) as [Hr2 Hg2].
    { unfold st2, first_pass. rewrite Hg1, Ha1', decide_True by done. simpl.
      by rewrite list_lookup_insert_eq, JsArray_get_set_eq by lia. }
    unfold second_pass. rewrite Hg4, Hg3, Hg2, decide_True by done.
    by rewrite Hr4, Hr3.
  - assert (∃ a, JsArray.get (answerLetters st1) i = Some a) as [a Ha1'].
    { rewrite Ha1. unfold JsArray.get. simpl. unfold JsArray.split.
      rewrite list_lookup_fmap.
      destruct (lookup_lt_is_Some_2 answer i ltac:(lia)) as [a ->]. by exists a. }
    assert (st2 = st1) as Hst2.
    { unfold st2, first_pass. by rewrite Hg1, Ha1', decide_False. }
    rewrite Hst2 in *.
    unfold second_pass. rewrite Hg4, Hg3, Hg1, decide_False by done.
    rewrite JsArray_indexOf_undefined. by rewrite Hr4, Hr3.
Qed.

Lemma evaluate_past_the_guess_witness :
  evaluate (str "ab") (str "cd") !! 3%nat =
  Some (if decide (length (str "cd") ≤ 3)%nat then correct else absent).
Proof.
  apply (evaluate_past_the_guess (str "ab") (str "cd") 3); vm_compute; lia.
Defined.

Example evaluate_short_words :
  evaluate (str "ab") (str "cd") = [absent; absent; correct; correct; correct].
Proof. vm_compute. reflexivity. Qed.

(** * Further properties of [POST /api/guess] *)

Lemma GuessOk_inj r1 s1 r2 s2 :
  GuessOk r1 s1 = GuessOk r2 s2 → r1 = r2 ∧ s1 = s2.
Proof. intros H. by inversion H. Qed.

Section GuessHandlerProperties.
Variable WORDS : list jsstring.
Variables toLowerCase trim : jsstring → jsstring.

(** The handler throws exactly when the body gives no string for [guess].
    For a string it never reaches [evaluate] with an undefined answer,
    whatever the word list; with an empty list every string is answered one
    of the two errors. *)
Theorem guess_route_throws_iff (now : Z) (body : option jsstring) :
  (guess_route WORDS toLowerCase trim now body = GuessThrows ↔ body = None) ∧
  (WORDS = [] → ∀ guess, body = Some guess →
   guess_route WORDS toLowerCase trim now body =
     GuessError 400 "Word must be 5 letters" ∨
   guess_route WORDS toLowerCase trim now body =
     GuessError 400 "Not in word list").
Proof.
  destruct body as [guess|]; simpl; [|split; [done|by intros _ guess [=]]].
  destruct (decide (length (trim (toLowerCase guess)) = 5%nat)) as [Hlen|Hlen].
  2: { rewrite guess_handler_short by done. split; [done|].
       intros _ g _. by left. }
  destruct (decide (trim (toLowerCase guess) ∈ WORD_SET WORDS)) as [Hin|Hin].
  2: { rewrite guess_handler_unknown by done. split; [done|].
       intros _ g _. by right. }
  destruct (guess_handler_known WORDS toLowerCase trim now guess Hlen Hin)
    as (answer & _ & ->).
  split; [done|]. intros Hnil. exfalso.
  unfold WORD_SET in Hin. rewrite Hnil in Hin. by apply elem_of_empty in Hin.
Qed.

(** The flag is [true] exactly when the guess, lowercased and trimmed, has
    five letters and is today's word; the tags are then five [correct]. No
    assumption on the word list: were today's word not five letters long, no
    guess would be answered [true]. *)
Theorem guess_handler_solved_iff (now : Z) (guess : jsstring) :
  let word := trim (toLowerCase guess) in
  ((∃ r, guess_handler WORDS toLowerCase trim now guess = GuessOk r true) ↔
   length word = 5%nat ∧ getDailyWord WORDS now = Some word) ∧
  (∀ r, guess_handler WORDS toLowerCase trim now guess = GuessOk r true →
        r = [correct; correct; correct; correct; correct]).
Proof.
  intros word. subst word.
  assert (∀ r, guess_handler WORDS toLowerCase trim now guess = GuessOk r true →
               length (trim (toLowerCase guess)) = 5%nat ∧
               getDailyWord WORDS now = Some (trim (toLowerCase guess)) ∧
               r = [correct; correct; correct; correct; correct]) as Hsolved.
  { intros r.
    destruct (decide (length (trim (toLowerCase guess)) = 5%nat)) as [Hlen|Hlen].
    2: { rewrite guess_handler_short by done. intros H. discriminate H. }
    destruct (decide (trim (toLowerCase guess) ∈ WORD_SET WORDS)) as [Hin|Hin].
    2: { rewrite guess_handler_unknown by done. intros H. discriminate H. }
    destruct (guess_handler_known WORDS toLowerCase trim now guess Hlen Hin)
      as (answer & Hanswer & ->).
    intros [<- Heq]%GuessOk_inj. apply bool_decide_eq_true in Heq. subst answer.
    split_and!; [exact Hlen|exact Hanswer|]. by apply evaluate_all_correct. }
  split; [split|].
  - intros [r Hr]. by destruct (Hsolved r Hr) as (? & ? & _).
  - intros [Hlen Hword].
    assert (trim (toLowerCase guess) ∈ WORD_SET WORDS) as Hin.
    { apply elem_of_list_to_set. by eapply getDailyWord_in_list. }
    destruct (guess_handler_known WORDS toLowerCase trim now guess Hlen Hin)
      as (answer & Hanswer & ->).
    rewrite Hword in Hanswer. injection Hanswer as <-.
    rewrite bool_decide_eq_true_2 by reflexivity. eexists. reflexivity.
  - intros r Hr. by destruct (Hsolved r Hr) as (_ & _ & ?).
Qed.
End GuessHandlerProperties.

Lemma guess_route_throws_iff_witness :
  guess_route [] ascii_toLowerCase ascii_trim 1709164800000 (Some (str "crane")) =
    GuessError 400 "Word must be 5 letters" ∨
  guess_route [] ascii_toLowerCase ascii_trim 1709164800000 (Some (str "crane")) =
    GuessError 400 "Not in word list".
Proof.
  destruct (guess_route_throws_iff [] ascii_toLowerCase ascii_trim
              1709164800000 (Some (str "crane"))) as [_ Hempty].
  by apply (Hempty eq_refl (str "crane")).
Defined.

Lemma guess_handler_solved_iff_witness :
  guess_handler sample_words ascii_toLowerCase ascii_trim 1709164800000
    (str " Crane") = GuessOk [correct; correct; correct; correct; correct] true.
Proof.
  destruct (guess_handler_solved_iff sample_words ascii_toLowerCase ascii_trim
              1709164800000 (str " Crane")) as [[_ Hsolved] Htags].
  destruct Hsolved as [r Hr]; [split; reflexivity|].
  by rewrite Hr, (Htags r Hr).
Defined.

(** * Instances *)

Lemma solve_all_minimum_witness :
  time_ms (Row 300 3) <= timeMs (SolveRequest 7 500 4).
Proof.
  pose proof (solve_all_minimum ∅
                [SolveRequest 7 500 4; SolveRequest 7 300 3; SolveRequest 8 100 1]
                7) as H.
  change (solve_all _ ∅ !! 7) with (Some (Row 300 3)) in H.
  destruct H as (Hmin & _ & _). apply Hmin; [|reflexivity]. by left.
Defined.

Lemma dateStr_identifies_day_witness :
  dateStr 1709164800000 = dateStr 1709251199999.
Proof. apply (dateStr_identifies_day 1709164800000 1709251199999). reflexivity. Defined.

Lemma fastest_null_iff_witness :
  fastest_handler (solve_all [SolveRequest 8 100 1] ∅) 7 =
  {| fastestTimeMs := None; fastestGuesses := None |}.
Proof.
  apply (fastest_null_iff ∅ [SolveRequest 8 100 1] 7). split; [reflexivity|].
  intros q ->%list_elem_of_singleton. discriminate.
Defined.

Lemma updateKeyStates_never_downgrades_witness :
  (rank (({[ str "e" := Correct ]} : gmap jsstring TileState) !! str "e") ≤
   rank (updateKeyStates (str "speed")
           (tile_of_tag <$> evaluate (str "speed") (str "abide"))
           {[ str "e" := Correct ]} !! str "e"))%nat.
Proof.
  apply (updateKeyStates_never_downgrades (str "speed")
           (tile_of_tag <$> evaluate (str "speed") (str "abide"))
           {[ str "e" := Correct ]} (str "e")).
Defined.

(** [parseInt_NaN] names the texts [parseInt] reads no number from. *)
Lemma parseInt_NaN_none (s : jsstring) : parseInt_NaN s = true → parseInt s = None.
Proof.
  assert (∀ sign s2, no_digit s2 = true → parse_magnitude sign s2 = None) as H.
  { intros sign s2. unfold no_digit, parse_magnitude.
    destruct (if hex_prefix s2 then drop 2 s2 else s2) as [|c r]; [done|].
    by destruct (digit_value _ c). }
  unfold parseInt_NaN, parseInt.
  destruct (skip_white_space s) as [|c r]; [apply H|].
  destruct (c =? 45)%N; [apply H|]. destruct (c =? 43)%N; apply H.
Qed.

Example fastest_route_not_a_number :
  fastest_route (<[7 := Row 500 4]> ∅) (str "seven")
  = Some {| fastestTimeMs := None; fastestGuesses := None |}.
Proof. reflexivity. Qed.
